(** * flurs: the base contract of an incremental recommender

    A shallow embedding of [flurs/base.py] (class [Recommender]): the entity
    registry ([n_user], [users], [n_item], [items] with [is_new_user],
    [add_user], [is_new_item], [add_item]) and the shared ranking step
    [scores2recos], together with the part of NumPy the ranking step calls
    ([np.argsort], the reversed view [a[::-1]] and indexing by an index
    array). *)

From Stdlib Require Import Floats ZArith Lia.
From stdpp Require Import gmap strings list sorting.

Set Default Proof Using "Type*".
Set Warnings "-inexact-float".

(** ** Python results

    A call either returns a value or raises.  The only exception the modelled
    code can raise is NumPy's [IndexError], from indexing out of bounds. *)

Inductive exn := IndexError.

Inductive result (A : Type) :=
  | Ok (a : A)
  | Raise (e : exn).
Arguments Ok {A} a.
Arguments Raise {A} e.

Global Instance result_ret : MRet result := @Ok.

Global Instance result_bind : MBind result := λ A B k r,
  match r with
  | Ok a => k a
  | Raise e => Raise e
  end.

(** ** The part of NumPy that [scores2recos] uses *)

Module np.

(** The comparison a dtype is sorted by (npysort's [Tag::less]). *)
Class Less (A : Type) := less : A → A → bool.
Global Hint Mode Less ! : typeclass_instances.

(** What sorting needs of [less]: it is a strict weak order. *)
Class StrictWeakOrder (A : Type) `{Less A} : Prop := {
  less_asym (a b : A) : less a b = true → less b a = false;
  less_negtrans (a b c : A) :
    less a b = false → less b c = false → less a c = false
}.

(** float64: [a < b || (b != b && a == a)], which puts NaN after every
    number and makes all NaNs equivalent. *)
Global Instance float64_less : Less float := λ a b,
  (a <? b)%float || (negb (b =? b)%float && (a =? a)%float).

Section sorting.
Context {A : Type} `{Less A}.

(** The array paired with its positions: the keys [v[i]] that an argsort
    compares, each carrying the index [i] that is moved. *)
Definition enumerate (v : list A) : list (A * nat) :=
  zip v (seq 0 (length v)).

(** Insertion of the element that precedes all of [sorted] in the input:
    it goes in front of the first element that is not smaller, so it
    stays ahead of its equals. *)
Fixpoint insert (x : A * nat) (sorted : list (A * nat)) : list (A * nat) :=
  match sorted with
  | [] => [x]
  | y :: rest =>
      if less y.1 x.1 then y :: insert x rest else x :: sorted
  end.

Definition insertion_sort (l : list (A * nat)) : list (A * nat) :=
  foldr insert [] l.

(** [np.argsort(v)]: indices that sort [v] in ascending order of [less].
    The default sort kind is not stable: NumPy fixes no order among tied
    positions, and the order it yields varies with length and build.  An
    executable definition has to pick one index array; this one keeps tied
    positions in input order, which need not be NumPy's choice.  What must
    hold of the program whatever the tie order is stated for every index
    array that sorts [v] ([is_argsort] and [rank_with] below).  The indices
    are [np.intp] values in [0 .. len(v) - 1], held as [nat]. *)
Definition argsort (v : list A) : list nat :=
  (insertion_sort (enumerate v)).*2.
End sorting.

(** [a[::-1]]: the reversed view. *)
Definition reversed {A} (a : list A) : list A := reverse a.

(** [a[indices]] for an array of non-negative indices: a new array holding
    [a[i]] for each [i] in turn; an index outside [0 .. len(a) - 1] raises
    [IndexError]. *)
Definition getitem {A} (a : list A) (indices : list nat) : result (list A) :=
  match mapM (λ i, a !! i) indices with
  | Some r => Ok r
  | None => Raise IndexError
  end.

End np.

(** ** The ranking step (base.py, lines 133-138) on array contents *)

Section scores2recos.
Context {score : Type} `{np.Less score}.

Definition scores2recos (scores : list score) (target_i_indices : list Z)
    (rev : bool) : result (list Z * list score) :=
  let sorted_indices := np.argsort scores in
  let sorted_indices :=
    if rev then np.reversed sorted_indices else sorted_indices in
  items ← np.getitem target_i_indices sorted_indices;
  ranked ← np.getitem scores sorted_indices;
  mret (items, ranked).
End scores2recos.

(** ** Python methods as state-passing computations *)

Definition Py (S A : Type) : Type := S → result A * S.

Global Instance Py_ret {S} : MRet (Py S) := λ A a s, (Ok a, s).

Global Instance Py_bind {S} : MBind (Py S) := λ A B k m s,
  match m s with
  | (Ok a, s') => k a s'
  | (Raise e, s') => (Raise e, s')
  end.

Definition get {S} : Py S S := λ s, (Ok s, s).

Definition modify {S} (f : S → S) : Py S unit := λ s, (Ok tt, f s).

(** ** The entity registry (base.py, lines 13-77) *)

(** The caller's [User] and [Item] objects: the contract reads only their
    [index]. *)
Module User.
Record t := mk { index : Z }.
End User.

Module Item.
Record t := mk { index : Z }.
End Item.

(** The values a registry record holds: the base class stores only the set
    of observed item indices. *)
Inductive value :=
  | VSet (s : gset Z).

(** A registry record is a [dict] with string keys. *)
Abbreviation record := (gmap string value).

Record Recommender := {
  n_user : Z;
  users : gmap Z record;
  n_item : Z;
  items : gmap Z record
}.

Definition __init__ : Recommender :=
  {| n_user := 0; users := ∅; n_item := 0; items := ∅ |}.

Definition is_new_user (u : Z) : Py Recommender bool :=
  self ← get;
  mret (bool_decide (u ∉ dom (users self))).

Definition add_user (user : User.t) : Py Recommender unit :=
  modify (λ self,
    {| n_user := n_user self;
       users := <[User.index user := {["observed" := VSet ∅]}]> (users self);
       n_item := n_item self;
       items := items self |});;
  modify (λ self,
    {| n_user := n_user self + 1;
       users := users self;
       n_item := n_item self;
       items := items self |}).

Definition is_new_item (i : Z) : Py Recommender bool :=
  self ← get;
  mret (bool_decide (i ∉ dom (items self))).

Definition add_item (item : Item.t) : Py Recommender unit :=
  modify (λ self,
    {| n_user := n_user self;
       users := users self;
       n_item := n_item self;
       items := <[Item.index item := ∅]> (items self) |});;
  modify (λ self,
    {| n_user := n_user self;
       users := users self;
       n_item := n_item self + 1;
       items := items self |}).

(** ** The method as its caller sees it

    [scores2recos] receives and returns NumPy arrays, which are objects that
    the caller keeps references to.  The store holds the recommender and the
    arrays the caller can reach; an array is named by its position, and a new
    array is appended.  [sorted_indices] is local to the call and is not kept
    in the store. *)

Section world.
Context {score : Type} `{np.Less score}.

Record World := {
  self : Recommender;
  score_arrays : list (list score);
  index_arrays : list (list Z)
}.

Definition new_world : World :=
  {| self := __init__; score_arrays := []; index_arrays := [] |}.

(** A registry method runs on [self] and touches no array. *)
Definition on_self {A} (m : Py Recommender A) (w : World) : result A * World :=
  let '(r, self') := m (self w) in
  (r, {| self := self';
         score_arrays := score_arrays w;
         index_arrays := index_arrays w |}).

(** [self.scores2recos(scores, target_i_indices, rev)] on references.
    Indexing by an index array builds a new array, so both results are
    appended to the store; no statement of the body assigns to [self] or to
    an element of an argument.  [None]: a reference names no array, which
    no Python caller can pass. *)
Definition call_scores2recos (scores target_i_indices : nat) (rev : bool)
    (w : World) : option (result (nat * nat) * World) :=
  s ← score_arrays w !! scores;
  t ← index_arrays w !! target_i_indices;
  Some
    match scores2recos s t rev with
    | Ok (items, ranked) =>
        (Ok (length (index_arrays w), length (score_arrays w)),
         {| self := self w;
            score_arrays := score_arrays w ++ [ranked];
            index_arrays := index_arrays w ++ [items] |})
    | Raise e => (Raise e, w)
    end.

(** What a driver can do with a recommender of the base class: call the
    registry methods and the ranking step, and build arrays to rank. *)
Inductive call :=
  | Call_is_new_user (u : Z)
  | Call_add_user (user : User.t)
  | Call_is_new_item (i : Z)
  | Call_add_item (item : Item.t)
  | Call_scores2recos (scores target_i_indices : nat) (rev : bool)
  | New_scores (a : list score)
  | New_indices (a : list Z).

Definition exec (c : call) (w : World) : option World :=
  match c with
  | Call_is_new_user u => Some (on_self (is_new_user u) w).2
  | Call_add_user user => Some (on_self (add_user user) w).2
  | Call_is_new_item i => Some (on_self (is_new_item i) w).2
  | Call_add_item item => Some (on_self (add_item item) w).2
  | Call_scores2recos s t rev => snd <$> call_scores2recos s t rev w
  | New_scores a =>
      Some {| self := self w;
              score_arrays := score_arrays w ++ [a];
              index_arrays := index_arrays w |}
  | New_indices a =>
      Some {| self := self w;
              score_arrays := score_arrays w;
              index_arrays := index_arrays w ++ [a] |}
  end.

(** [runs ok w cs w']: the calls [cs], each allowed by [ok] in the state it
    is made in, lead from [w] to [w']. *)
Inductive runs (ok : call → World → Prop) : World → list call → World → Prop :=
  | runs_nil w : runs ok w [] w
  | runs_cons w c w' cs w'' :
      ok c w → exec c w = Some w' → runs ok w' cs w'' →
      runs ok w (c :: cs) w''.

(** Every sequence of calls. *)
Definition any_call : call → World → Prop := λ _ _, True.

(** The sequences of the documented use: [add_user] and [add_item] only
    for an index that [is_new_user] / [is_new_item] reports as new. *)
Definition guarded_call : call → World → Prop := λ c w,
  match c with
  | Call_add_user user => (is_new_user (User.index user) (self w)).1 = Ok true
  | Call_add_item item => (is_new_item (Item.index item) (self w)).1 = Ok true
  | _ => True
  end.
End world.
Arguments World score : clear implicits.
Arguments call score : clear implicits.

(** The invariants the registry is meant to keep. *)
Definition counts_match (self : Recommender) : Prop :=
  n_user self = Z.of_nat (size (users self)) ∧
  n_item self = Z.of_nat (size (items self)).

(** ** Orders on scores *)

Section orders.
Context {A : Type} `{np.Less A}.

(** No later element is smaller than an earlier one. *)
Definition ascending (l : list A) : Prop :=
  StronglySorted (λ x y, np.less y x = false) l.

(** No later element is greater than an earlier one. *)
Definition descending (l : list A) : Prop :=
  StronglySorted (λ x y, np.less x y = false) l.

(** Scores the sort does not tell apart. *)
Definition tied (x y : A) : Prop :=
  np.less x y = false ∧ np.less y x = false.

(** The order a stable ascending sort puts keyed positions in: by key, and
    by position among tied keys. *)
Definition before (x y : A * nat) : Prop :=
  np.less y.1 x.1 = false ∧ (np.less x.1 y.1 = false → x.2 < y.2).
End orders.

(** [r] is what indexing [target_i_indices] and [scores] by the index array
    [p] gives, and [p] lists every position once. *)
Definition ranked_by {score} (p : list nat) (scores : list score)
    (target_i_indices : list Z) (r : list Z * list score) : Prop :=
  p ≡ₚ seq 0 (length scores) ∧
  Forall2 (λ i x, target_i_indices !! i = Some x) p r.1 ∧
  Forall2 (λ i s, scores !! i = Some s) p r.2.

(** What NumPy documents of [np.argsort(v)] for every sort kind: an index
    array that lists every position once and sorts [v].  Which of two tied
    positions comes first is left to the sort. *)
Definition is_argsort {A} `{np.Less A} (v : list A) (p : list nat) : Prop :=
  p ≡ₚ seq 0 (length v) ∧ ∃ r, np.getitem v p = Ok r ∧ ascending r.

(** Lines 135-138 of base.py for an index array [sorted_indices], whichever
    one line 133 produced. *)
Definition rank_with {score} (sorted_indices : list nat) (scores : list score)
    (target_i_indices : list Z) (rev : bool) : result (list Z * list score) :=
  let sorted_indices :=
    if rev then np.reversed sorted_indices else sorted_indices in
  items ← np.getitem target_i_indices sorted_indices;
  ranked ← np.getitem scores sorted_indices;
  mret (items, ranked).

(** The index array the two arguments are indexed by. *)
Definition oriented (p : list nat) (rev : bool) : list nat :=
  if rev then np.reversed p else p.

(** Position [i] of the input comes out before position [j] in the ranking
    by the index array [p]. *)
Definition precedes (p : list nat) (i j : nat) : Prop :=
  ∃ a b, a < b ∧ p !! a = Some i ∧ p !! b = Some j.

(** No two positions hold tied scores. *)
Definition untied {score} `{np.Less score} (scores : list score) : Prop :=
  ∀ i j x y, scores !! i = Some x → scores !! j = Some y → tied x y → i = j.

(** The order of the sorted scores in terms of Python's own comparisons. *)
Definition non_decreasing (l : list float) : Prop :=
  ∀ i j x y, i < j → l !! i = Some x → l !! j = Some y →
    (y <? x)%float = false ∧ (is_nan y = false → (x <=? y)%float = true).

Definition non_increasing (l : list float) : Prop :=
  ∀ i j x y, i < j → l !! i = Some x → l !! j = Some y →
    (x <? y)%float = false ∧ (is_nan x = false → (y <=? x)%float = true).

(** ** float64 keys

    Every float gets a key read off its IEEE specification, NaN the largest;
    [np.less] on floats is the lexicographic order of the keys. *)

Definition float_key (a : spec_float) : Z * Z * Z :=
  match a with
  | S754_infinity true => (-2, 0, 0)
  | S754_finite true m e => (-1, - e, Z.neg m)
  | S754_zero _ => (0, 0, 0)
  | S754_finite false m e => (1, e, Z.pos m)
  | S754_infinity false => (2, 0, 0)
  | S754_nan => (3, 0, 0)
  end%Z.

Definition key_lt (k1 k2 : Z * Z * Z) : Prop :=
  (k1.1.1 < k2.1.1 ∨
   k1.1.1 = k2.1.1 ∧ (k1.1.2 < k2.1.2 ∨ k1.1.2 = k2.1.2 ∧ k1.2 < k2.2))%Z.

(** [np.less] on the IEEE specification of two floats. *)
Definition spec_less (a b : spec_float) : bool :=
  SFltb a b || (negb (SFeqb b b) && SFeqb a a).

(** ** The methods left to subclasses (base.py, lines 26-31, 79-118 and
    148-164)

    In the base classes the body of each is [pass] or a bare [return]: the
    call reads no argument, assigns nothing and returns [None].  Array
    arguments are references into the store. *)

Section base_bodies.
Context {Event : Type}.

Definition init_model : Py Recommender unit := mret tt.

Definition update (e : Event) (is_batch_train : bool) : Py Recommender unit :=
  mret tt.

Definition predict (user : User.t) (candidates : nat) : Py Recommender unit :=
  mret tt.

Definition recommend (user : User.t) (target_i_indices : nat) :
    Py Recommender unit :=
  mret tt.
End base_bodies.

Module FeatureRecommender.
Definition recommend (user : User.t) (target_i_indices context : nat) :
    Py Recommender unit :=
  mret tt.
End FeatureRecommender.

(** ** Every method of the two classes *)

Section methods.
Context {score Event : Type} `{np.Less score}.

(** A call of any method of [Recommender] or [FeatureRecommender], or the
    creation of an array by the driver. *)
Inductive method :=
  | Call (c : call score)
  | Call_init_model
  | Call_update (e : Event) (is_batch_train : bool)
  | Call_predict (user : User.t) (candidates : nat)
  | Call_recommend (user : User.t) (target_i_indices : nat)
  | Call_feature_recommend (user : User.t) (target_i_indices context : nat).

Definition exec_method (m : method) (w : World score) : option (World score) :=
  match m with
  | Call c => exec c w
  | Call_init_model => Some (on_self init_model w).2
  | Call_update e is_batch_train => Some (on_self (update e is_batch_train) w).2
  | Call_predict user candidates => Some (on_self (predict user candidates) w).2
  | Call_recommend user target_i_indices =>
      Some (on_self (recommend user target_i_indices) w).2
  | Call_feature_recommend user target_i_indices context =>
      Some (on_self (FeatureRecommender.recommend user target_i_indices context) w).2
  end.

(** [method_runs w ms w']: the calls [ms], in order, lead from [w] to [w']. *)
Inductive method_runs : World score → list method → World score → Prop :=
  | method_runs_nil w : method_runs w [] w
  | method_runs_cons w m w' ms w'' :
      exec_method m w = Some w' → method_runs w' ms w'' →
      method_runs w (m :: ms) w''.

(** The indices passed to [add_user] during the calls [ms], in order. *)
Definition added_users (ms : list method) : list Z :=
  omap (λ m, match m with
             | Call (Call_add_user user) => Some (User.index user)
             | _ => None
             end) ms.

(** The indices passed to [add_item] during the calls [ms], in order. *)
Definition added_items (ms : list method) : list Z :=
  omap (λ m, match m with
             | Call (Call_add_item item) => Some (Item.index item)
             | _ => None
             end) ms.
End methods.
Arguments method score Event : clear implicits.

(** * Properties of the NumPy model *)

Section np_facts.
Context {A : Type} `{np.Less A}.

Lemma insert_perm (x : A * nat) l : np.insert x l ≡ₚ x :: l.
Proof.
  induction l as [|y l IH]; simpl; [done|].
  destruct (np.less y.1 x.1); [|done].
  rewrite IH. apply Permutation_swap.
Qed.

Lemma insertion_sort_perm (l : list (A * nat)) : np.insertion_sort l ≡ₚ l.
Proof.
  induction l as [|x l IH]; simpl; [done|].
  by rewrite insert_perm, IH.
Qed.

Lemma enumerate_lookup (v : list A) i x k :
  zip v (seq k (length v)) !! i = Some (x, k + i) ↔ v !! i = Some x.
Proof.
  rewrite lookup_zip_Some, lookup_seq. simpl.
  split; [by intros [? _]|]. intros Hx. split_and!; [done..|].
  by apply lookup_lt_Some in Hx.
Qed.

Lemma enumerate_elem_of (v : list A) x i :
  (x, i) ∈ np.enumerate v ↔ v !! i = Some x.
Proof.
  unfold np.enumerate. rewrite list_elem_of_lookup. split.
  - intros [j Hj]. pose proof Hj as Hj'.
    apply lookup_zip_Some in Hj' as [_ [-> _]%lookup_seq]. simpl in Hj.
    by apply (enumerate_lookup v j x 0).
  - intros Hx. exists i. by apply (enumerate_lookup v i x 0).
Qed.

Lemma enumerate_fst (v : list A) : (np.enumerate v).*1 = v.
Proof. apply fst_zip. by rewrite length_seq. Qed.

Lemma enumerate_snd (v : list A) : (np.enumerate v).*2 = seq 0 (length v).
Proof. apply snd_zip. by rewrite length_seq. Qed.

Lemma enumerate_increasing (v : list A) k :
  StronglySorted (λ x y : A * nat, x.2 < y.2) (zip v (seq k (length v))).
Proof.
  revert k. induction v as [|x v IH]; intros k; simpl; [constructor|].
  constructor; [apply IH|].
  apply Forall_forall. intros [y j] Hy. simpl.
  apply list_elem_of_lookup in Hy as [i Hi].
  apply lookup_zip_Some in Hi as [_ [-> _]%lookup_seq]. simpl. lia.
Qed.

Lemma argsort_perm (v : list A) : np.argsort v ≡ₚ seq 0 (length v).
Proof.
  unfold np.argsort. by rewrite insertion_sort_perm, enumerate_snd.
Qed.

Lemma argsort_length (v : list A) : length (np.argsort v) = length v.
Proof. by rewrite argsort_perm, length_seq. Qed.

Lemma argsort_lt (v : list A) i : i ∈ np.argsort v → i < length v.
Proof. rewrite argsort_perm, elem_of_seq. lia. Qed.

(** Indexing the sorted array by its own argsort gives the sorted keys. *)
Lemma argsort_keys (v : list A) :
  Forall2 (λ i x, v !! i = Some x) (np.argsort v)
    (np.insertion_sort (np.enumerate v)).*1.
Proof.
  unfold np.argsort. apply Forall2_fmap, Forall_Forall2_diag, Forall_forall.
  intros [x i]. rewrite insertion_sort_perm. apply enumerate_elem_of.
Qed.

(** Indexing by an index array: when it returns and what. *)
Lemma getitem_Ok {B} (a : list B) indices r :
  np.getitem a indices = Ok r ↔ Forall2 (λ i x, a !! i = Some x) indices r.
Proof.
  unfold np.getitem. rewrite <-mapM_Some.
  destruct (mapM _ indices); naive_solver.
Qed.

Lemma getitem_Raise {B} (a : list B) indices e :
  np.getitem a indices = Raise e ↔ Exists (λ i, length a ≤ i) indices.
Proof.
  unfold np.getitem.
  assert (Exists (λ i, length a ≤ i) indices ↔ mapM (λ i, a !! i) indices = None)
    as ->.
  { rewrite mapM_None. apply Exists_proper; [|done].
    intros i. by rewrite lookup_ge_None. }
  destruct (mapM _ indices), e; naive_solver.
Qed.

Lemma getitem_total {B} (a : list B) indices :
  Forall (λ i, i < length a) indices → ∃ r, np.getitem a indices = Ok r.
Proof.
  intros Hlt. unfold np.getitem.
  destruct (mapM_is_Some_2 (λ i, a !! i) indices) as [r ->]; [|by eauto].
  eapply Forall_impl; [done|]. intros i. apply lookup_lt_is_Some_2.
Qed.

Lemma getitem_reversed {B} (a : list B) indices r :
  np.getitem a indices = Ok r →
  np.getitem a (np.reversed indices) = Ok (reverse r).
Proof.
  rewrite !getitem_Ok. apply Forall2_reverse.
Qed.

(** An index array that lists every position once selects a permutation. *)
Lemma lookup_all_seq {B} (a : list B) :
  omap (λ i, a !! i) (seq 0 (length a)) = a.
Proof.
  induction a as [|x a IH] using rev_ind; [done|].
  rewrite length_app, seq_app, omap_app. simpl.
  rewrite lookup_app_r, Nat.sub_diag by done. simpl. f_equal.
  rewrite <-IH at 2. apply list_omap_ext, Forall2_same_length_lookup.
  split; [done|]. intros i ? ? [-> ?]%lookup_seq [-> ?]%lookup_seq.
  simpl. by rewrite lookup_app_l.
Qed.

Lemma getitem_perm {B} (a : list B) p r :
  p ≡ₚ seq 0 (length a) → Forall2 (λ i x, a !! i = Some x) p r → r ≡ₚ a.
Proof.
  intros Hp Hr. rewrite <-(lookup_all_seq a), <-Hp.
  clear Hp. induction Hr as [|i x p r Hx _ IH]; simpl; [done|].
  by rewrite Hx, IH.
Qed.
End np_facts.

Section sort_facts.
Context {A : Type} `{np.StrictWeakOrder A}.

Lemma less_irrefl (a : A) : np.less a a = false.
Proof.
  destruct (np.less a a) eqn:E; [|done].
  by rewrite (np.less_asym a a E) in E.
Qed.

Lemma tied_refl (a : A) : tied a a.
Proof. split; apply less_irrefl. Qed.

Lemma insert_before (x : A * nat) l :
  Forall (λ y, x.2 < y.2) l →
  StronglySorted before l → StronglySorted before (np.insert x l).
Proof.
  induction l as [|y l IH]; simpl; intros Hlt Hs.
  { repeat constructor. }
  apply Forall_cons in Hlt as [Hxy Hlt].
  apply StronglySorted_cons in Hs as [Hy Hs].
  destruct (np.less y.1 x.1) eqn:E; apply StronglySorted_cons.
  - split; [|by apply IH]. rewrite insert_perm. constructor; [|done].
    split; [by apply np.less_asym|]. by rewrite E.
  - split; [|by apply StronglySorted_cons]. constructor; [done|].
    rewrite Forall_forall in Hy, Hlt. apply Forall_forall.
    intros z Hz. destruct (Hy z Hz) as [Hzy _]. split; [|by auto].
    by apply (np.less_negtrans _ y.1).
Qed.

Lemma insertion_sort_before (l : list (A * nat)) :
  StronglySorted (λ x y, x.2 < y.2) l →
  StronglySorted before (np.insertion_sort l).
Proof.
  induction 1 as [|x l _ IH Hx]; simpl; [constructor|].
  apply insert_before; [|done]. by rewrite insertion_sort_perm.
Qed.

Lemma argsort_before (v : list A) :
  StronglySorted before (np.insertion_sort (np.enumerate v)).
Proof. apply insertion_sort_before, enumerate_increasing. Qed.

Lemma argsort_ascending (v : list A) :
  ascending (np.insertion_sort (np.enumerate v)).*1.
Proof.
  eapply StronglySorted_fmap; [|apply argsort_before]. by intros x y [? _].
Qed.
End sort_facts.

Section sorted_lists.
Context {A : Type} (R : relation A).

Lemma StronglySorted_lookup_lt l i j x y :
  StronglySorted R l → i < j → l !! i = Some x → l !! j = Some y → R x y.
Proof.
  intros Hs. revert i j.
  induction Hs as [|z l _ IH Hz]; intros i j Hij Hx Hy; [done|].
  destruct i as [|i], j as [|j]; simplify_eq/=; try lia.
  - eapply Forall_forall; [done|]. by eapply list_elem_of_lookup_2.
  - apply (IH i j); [lia|done..].
Qed.

Lemma StronglySorted_reverse l :
  StronglySorted R l → StronglySorted (flip R) (reverse l).
Proof.
  induction 1 as [|x l _ IH Hx]; rewrite ?reverse_nil, ?reverse_cons.
  { constructor. }
  apply StronglySorted_app_2; [|done|repeat constructor].
  intros y z Hy Hz. apply list_elem_of_singleton in Hz as ->.
  rewrite elem_of_reverse in Hy. unfold flip.
  rewrite Forall_forall in Hx. by apply Hx.
Qed.
End sorted_lists.

(** ** float64 is sorted by a strict weak order *)

Lemma spec_less_key a b :
  spec_less a b = true ↔ key_lt (float_key a) (float_key b).
Proof.
  unfold spec_less, SFltb, SFeqb, SFcompare, key_lt.
  destruct a as [[]|[]| |[] m1 e1], b as [[]|[]| |[] m2 e2]; simpl;
    try (split; [intros; lia || discriminate | intros; lia || reflexivity]).
  all: rewrite ?Pos.compare_cont_spec; simpl.
  all: repeat match goal with
       | |- context [Z.compare ?x ?y] => destruct (Z.compare_spec x y); simpl
       | |- context [Pos.compare ?x ?y] => destruct (Pos.compare_spec x y); simpl
       end.
  all: split; intros; try reflexivity; try discriminate; try lia.
Qed.

Lemma float64_less_key (a b : float) :
  np.less a b = true ↔ key_lt (float_key (Prim2SF a)) (float_key (Prim2SF b)).
Proof.
  rewrite <-spec_less_key. unfold np.less, np.float64_less, spec_less.
  by rewrite FloatAxioms.ltb_spec, !FloatAxioms.eqb_spec.
Qed.

Lemma float64_less_false_key (a b : float) :
  np.less a b = false ↔
  ¬ key_lt (float_key (Prim2SF a)) (float_key (Prim2SF b)).
Proof. by rewrite <-float64_less_key, not_true_iff_false. Qed.

Global Instance float64_order : np.StrictWeakOrder float.
Proof.
  split.
  - intros a b. rewrite float64_less_key, float64_less_false_key.
    unfold key_lt. lia.
  - intros a b c. rewrite !float64_less_false_key. unfold key_lt. lia.
Qed.

Lemma spec_less_false_leb a b :
  spec_less b a = false → SFeqb b b = true → SFleb a b = true.
Proof.
  unfold spec_less, SFltb, SFleb, SFeqb, SFcompare.
  destruct a as [[]|[]| |[] m1 e1], b as [[]|[]| |[] m2 e2]; simpl; try done.
  all: rewrite ?Pos.compare_cont_spec, ?Z.compare_refl, ?Pos.compare_refl; simpl.
  all: repeat match goal with
       | |- context [Z.compare ?x ?y] => destruct (Z.compare_spec x y); simpl
       | |- context [Pos.compare ?x ?y] => destruct (Pos.compare_spec x y); simpl
       end; try done; lia.
Qed.

Lemma spec_eqb_tied a b :
  SFeqb a b = true → spec_less a b = false ∧ spec_less b a = false.
Proof.
  unfold spec_less, SFltb, SFeqb, SFcompare.
  destruct a as [[]|[]| |[] m1 e1], b as [[]|[]| |[] m2 e2]; simpl; try done.
  all: rewrite ?Pos.compare_cont_spec; simpl.
  all: repeat match goal with
       | |- context [Z.compare ?x ?y] => destruct (Z.compare_spec x y); simpl
       | |- context [Pos.compare ?x ?y] => destruct (Pos.compare_spec x y); simpl
       end; try done; intros _; subst;
       rewrite ?Z.compare_refl, ?Pos.compare_refl; simpl; try done; lia.
Qed.

Lemma float64_less_spec (a b : float) :
  np.less a b = spec_less (Prim2SF a) (Prim2SF b).
Proof.
  unfold np.less, np.float64_less, spec_less.
  by rewrite FloatAxioms.ltb_spec, !FloatAxioms.eqb_spec.
Qed.

Lemma float64_less_false (x y : float) :
  np.less y x = false →
  (y <? x)%float = false ∧ (is_nan y = false → (x <=? y)%float = true).
Proof.
  intros Hless. split.
  - unfold np.less, np.float64_less in Hless. by apply orb_false_elim in Hless as [? _].
  - unfold is_nan. rewrite negb_false_iff. rewrite float64_less_spec in Hless.
    rewrite FloatAxioms.leb_spec, FloatAxioms.eqb_spec.
    by apply spec_less_false_leb.
Qed.

Lemma float64_eqb_tied (x y : float) : (x =? y)%float = true → tied x y.
Proof.
  unfold tied. rewrite FloatAxioms.eqb_spec, !float64_less_spec.
  apply spec_eqb_tied.
Qed.

Lemma ascending_non_decreasing (l : list float) :
  ascending l → non_decreasing l.
Proof.
  intros Hl i j x y Hij Hx Hy. apply float64_less_false.
  by apply (StronglySorted_lookup_lt (λ x y, np.less y x = false) l i j x y).
Qed.

Lemma descending_non_increasing (l : list float) :
  descending l → non_increasing l.
Proof.
  intros Hl i j x y Hij Hx Hy. apply float64_less_false.
  by apply (StronglySorted_lookup_lt (λ x y, np.less x y = false) l i j x y).
Qed.

(** * The ranking step *)

(** ** Ranking by any index array *)

Section ranking.
Context {score : Type}.
Implicit Types (scores : list score) (items : list Z) (p : list nat).

Lemma oriented_perm p rev n : p ≡ₚ seq 0 n → oriented p rev ≡ₚ seq 0 n.
Proof.
  intros Hp. unfold oriented, np.reversed.
  destruct rev; by rewrite ?reverse_Permutation.
Qed.

Lemma rank_with_Ok p scores items rev ri rs :
  rank_with p scores items rev = Ok (ri, rs) ↔
  np.getitem items (oriented p rev) = Ok ri ∧
  np.getitem scores (oriented p rev) = Ok rs.
Proof.
  unfold rank_with, mbind, result_bind, mret, result_ret.
  fold (oriented p rev).
  destruct (np.getitem items _) as [ri'|e]; [|by split; [|intros []]].
  destruct (np.getitem scores _) as [rs'|e]; [|by split; [|intros []]].
  split; [by intros [= -> ->]|by intros [[= ->] [= ->]]].
Qed.

Lemma rank_with_Raise p scores items rev :
  p ≡ₚ seq 0 (length scores) →
  length items < length scores →
  rank_with p scores items rev = Raise IndexError.
Proof.
  intros Hp Hlen.
  assert (np.getitem items (oriented p rev) = Raise IndexError) as Hi.
  { apply getitem_Raise, Exists_exists. exists (length scores - 1). split; [|lia].
    rewrite (oriented_perm p rev _ Hp), elem_of_seq. lia. }
  unfold rank_with, mbind, result_bind. fold (oriented p rev).
  by rewrite Hi.
Qed.

Lemma rank_with_total p scores items rev :
  p ≡ₚ seq 0 (length scores) →
  length scores ≤ length items →
  ∃ ri rs, rank_with p scores items rev = Ok (ri, rs).
Proof.
  intros Hp Hlen.
  assert (Forall (λ i, i < length scores) (oriented p rev)) as Hlt.
  { apply Forall_forall. intros i.
    rewrite (oriented_perm p rev _ Hp), elem_of_seq. lia. }
  destruct (getitem_total items (oriented p rev)) as [ri Hri].
  { eapply Forall_impl; [done|]. simpl. lia. }
  destruct (getitem_total scores (oriented p rev)) as [rs Hrs]; [done|].
  exists ri, rs. by apply rank_with_Ok.
Qed.

Lemma rank_with_ranked_by p scores items rev r :
  p ≡ₚ seq 0 (length scores) →
  rank_with p scores items rev = Ok r →
  ranked_by (oriented p rev) scores items r.
Proof.
  intros Hp. destruct r as [ri rs]. rewrite rank_with_Ok, !getitem_Ok.
  intros [??]. split_and!; [by apply oriented_perm|done..].
Qed.

Lemma rank_with_reverse p scores items ri rs :
  rank_with p scores items false = Ok (ri, rs) →
  rank_with p scores items true = Ok (reverse ri, reverse rs).
Proof.
  rewrite !rank_with_Ok. simpl.
  intros [??]. split; by apply getitem_reversed.
Qed.

Lemma rank_with_ignores_tail p scores items rev :
  p ≡ₚ seq 0 (length scores) →
  length scores ≤ length items →
  rank_with p scores (take (length scores) items) rev =
  rank_with p scores items rev.
Proof.
  intros Hp Hlen.
  assert (np.getitem (take (length scores) items) (oriented p rev) =
          np.getitem items (oriented p rev)) as Hi.
  { unfold np.getitem.
    rewrite (Forall_mapM_ext _ (λ i, items !! i)); [done|].
    apply Forall_forall. intros i.
    rewrite (oriented_perm p rev _ Hp), elem_of_seq. intros ?.
    apply lookup_take_lt. lia. }
  unfold rank_with. fold (oriented p rev). by rewrite Hi.
Qed.
End ranking.

Section ranking_order.
Context {score : Type} `{np.Less score}.
Implicit Types (scores : list score) (items : list Z) (p : list nat).

Lemma rank_with_ascending p scores items ri rs :
  is_argsort scores p →
  rank_with p scores items false = Ok (ri, rs) → ascending rs.
Proof.
  intros (_ & r & Hr & Hasc). rewrite rank_with_Ok. simpl. intros [_ Hrs].
  by replace rs with r by congruence.
Qed.

Lemma rank_with_descending p scores items ri rs :
  is_argsort scores p →
  rank_with p scores items true = Ok (ri, rs) → descending rs.
Proof.
  intros (_ & r & Hr & Hasc). rewrite rank_with_Ok. simpl. intros [_ Hrs].
  apply getitem_reversed in Hr.
  replace rs with (reverse r) by congruence.
  by apply (StronglySorted_reverse _ _ Hasc).
Qed.

(** [scores2recos] is the ranking by the index array of [np.argsort]. *)
Lemma scores2recos_rank_with scores items rev :
  scores2recos scores items rev = rank_with (np.argsort scores) scores items rev.
Proof. reflexivity. Qed.

Lemma scores2recos_Raise scores items rev :
  length items < length scores →
  scores2recos scores items rev = Raise IndexError.
Proof. apply rank_with_Raise, argsort_perm. Qed.

Lemma scores2recos_total scores items rev :
  length scores ≤ length items →
  ∃ ri rs, scores2recos scores items rev = Ok (ri, rs).
Proof. apply rank_with_total, argsort_perm. Qed.

Lemma scores2recos_ranked_by scores items rev r :
  scores2recos scores items rev = Ok r →
  ranked_by (oriented (np.argsort scores) rev) scores items r.
Proof. apply rank_with_ranked_by, argsort_perm. Qed.

Lemma scores2recos_reverse scores items ri rs :
  scores2recos scores items false = Ok (ri, rs) →
  scores2recos scores items true = Ok (reverse ri, reverse rs).
Proof. apply rank_with_reverse. Qed.

Lemma scores2recos_ignores_tail scores items rev :
  length scores ≤ length items →
  scores2recos scores (take (length scores) items) rev =
  scores2recos scores items rev.
Proof. apply rank_with_ignores_tail, argsort_perm. Qed.
End ranking_order.

(** ** Ranking by [np.argsort] *)

Section argsort_order.
Context {score : Type} `{np.StrictWeakOrder score}.
Implicit Types (scores : list score) (items : list Z).

Lemma argsort_is_argsort scores : is_argsort scores (np.argsort scores).
Proof.
  split; [apply argsort_perm|]. eexists. split.
  - apply getitem_Ok, argsort_keys.
  - apply argsort_ascending.
Qed.

Lemma scores2recos_ascending scores items ri rs :
  scores2recos scores items false = Ok (ri, rs) → ascending rs.
Proof. apply rank_with_ascending, argsort_is_argsort. Qed.

Lemma scores2recos_descending scores items ri rs :
  scores2recos scores items true = Ok (ri, rs) → descending rs.
Proof. apply rank_with_descending, argsort_is_argsort. Qed.
End argsort_order.

(** A joint selection: indexing two arrays by the same index array is
    indexing the array of their pairs. *)
Lemma Forall2_lookup_zip {A B} (a : list A) (b : list B) p ra rb :
  Forall2 (λ i x, a !! i = Some x) p ra →
  Forall2 (λ i y, b !! i = Some y) p rb →
  Forall2 (λ i xy, zip a b !! i = Some xy) p (zip ra rb).
Proof.
  intros Ha. revert rb.
  induction Ha as [|i x p ra Hx _ IH]; intros rb Hb; inv Hb; simpl; [done|].
  constructor; [|by apply IH]. by apply lookup_zip_Some.
Qed.

Lemma ranked_by_perm {score} p (scores : list score) items ri rs :
  length scores = length items →
  ranked_by p scores items (ri, rs) →
  ri ≡ₚ items ∧ rs ≡ₚ scores ∧ zip ri rs ≡ₚ zip items scores.
Proof.
  intros Hlen (Hp & Hi & Hs). simpl in *. split_and!.
  - apply (getitem_perm items p); [by rewrite <-Hlen|done].
  - by apply (getitem_perm scores p).
  - apply (getitem_perm (zip items scores) p).
    + rewrite length_zip. by replace (length items `min` length scores)
        with (length scores) by lia.
    + by apply Forall2_lookup_zip.
Qed.

(** ** Independence of the tie order

    Order, joint permutation and reversal hold for the ranking by any index
    array that NumPy may return for [np.argsort(scores)], whatever it does
    with ties. *)

Lemma rank_with_any_argsort {score} `{np.Less score} (scores : list score)
    (items : list Z) (p : list nat) :
  is_argsort scores p →
  length scores = length items →
  ∃ ri rs,
    rank_with p scores items false = Ok (ri, rs) ∧
    rank_with p scores items true = Ok (reverse ri, reverse rs) ∧
    ascending rs ∧ descending (reverse rs) ∧
    ri ≡ₚ items ∧ rs ≡ₚ scores ∧ zip ri rs ≡ₚ zip items scores.
Proof.
  intros Hp Hlen. pose proof Hp as [Hperm _].
  destruct (rank_with_total p scores items false Hperm) as (ri & rs & Hr); [lia|].
  pose proof (rank_with_reverse _ _ _ _ _ Hr) as Hrev.
  pose proof (rank_with_ranked_by _ _ _ _ _ Hperm Hr) as Hby.
  destruct (ranked_by_perm _ _ _ _ _ Hlen Hby) as (?&?&?).
  exists ri, rs. split_and!; try done.
  - by eapply rank_with_ascending.
  - by eapply rank_with_descending.
Qed.

(** ** Relative order under the two values of [rev] *)

Lemma precedes_reversed (p : list nat) (i j : nat) :
  precedes p i j → precedes (np.reversed p) j i.
Proof.
  intros (a & b & Hab & Ha & Hb). unfold np.reversed.
  pose proof (lookup_lt_Some _ _ _ Ha). pose proof (lookup_lt_Some _ _ _ Hb).
  exists (length p - S b), (length p - S a). split_and!; [lia|..].
  - apply reverse_lookup_Some. split; [|lia].
    by replace (length p - S (length p - S b)) with b by lia.
  - apply reverse_lookup_Some. split; [|lia].
    by replace (length p - S (length p - S a)) with a by lia.
Qed.

Lemma precedes_oriented (p : list nat) (i j : nat) :
  precedes (oriented p false) i j ↔ precedes (oriented p true) j i.
Proof.
  simpl. split; [apply precedes_reversed|].
  intros Hrev%precedes_reversed. unfold np.reversed in Hrev.
  by rewrite reverse_involutive in Hrev.
Qed.

Lemma precedes_asym (p : list nat) (i j : nat) :
  NoDup p → precedes p i j → ¬ precedes p j i.
Proof.
  intros Hp (a & b & Hab & Ha & Hb) (c & d & Hcd & Hc & Hd).
  assert (a = d) by (by eapply NoDup_lookup).
  assert (b = c) by (by eapply NoDup_lookup). lia.
Qed.

Lemma is_argsort_NoDup {A} `{np.Less A} (v : list A) (p : list nat) :
  is_argsort v p → NoDup p.
Proof. intros [-> _]. apply NoDup_seq. Qed.

(** The call on references, in terms of the ranking of the array contents. *)
Lemma call_scores2recos_unfold {score} `{np.Less score} (w : World score)
    s t rev scores items :
  score_arrays w !! s = Some scores →
  index_arrays w !! t = Some items →
  call_scores2recos s t rev w =
    Some
      match scores2recos scores items rev with
      | Ok (ri, rs) =>
          (Ok (length (index_arrays w), length (score_arrays w)),
           {| self := self w;
              score_arrays := score_arrays w ++ [rs];
              index_arrays := index_arrays w ++ [ri] |})
      | Raise e => (Raise e, w)
      end.
Proof. intros Hs Ht. unfold call_scores2recos. by rewrite Hs, Ht. Qed.

(** * The claims about [scores2recos] *)

(** C1. For equal-length [scores] and [target_i_indices], [scores2recos]
    with [rev = false] returns the scores, and the items permuted along with
    them, in non-decreasing score order, and with [rev = true] in
    non-increasing score order; on scores [0.3, 0.1, 0.2] and items
    [7, 8, 9] it yields items [8, 9, 7] with scores [0.1, 0.2, 0.3], and
    reversed items [7, 9, 8] with scores [0.3, 0.2, 0.1]. *)
Theorem C1_scores2recos_sorted :
  (∀ (scores : list float) (target_i_indices : list Z),
     length scores = length target_i_indices →
     (∃ p items ranked,
        scores2recos scores target_i_indices false = Ok (items, ranked) ∧
        ranked_by p scores target_i_indices (items, ranked) ∧
        ascending ranked ∧ non_decreasing ranked) ∧
     (∃ p items ranked,
        scores2recos scores target_i_indices true = Ok (items, ranked) ∧
        ranked_by p scores target_i_indices (items, ranked) ∧
        descending ranked ∧ non_increasing ranked)) ∧
  scores2recos [0.3; 0.1; 0.2]%float [7; 8; 9]%Z false =
    Ok ([8; 9; 7]%Z, [0.1; 0.2; 0.3]%float) ∧
  scores2recos [0.3; 0.1; 0.2]%float [7; 8; 9]%Z true =
    Ok ([7; 9; 8]%Z, [0.3; 0.2; 0.1]%float).
Proof.
  split; [|by vm_compute].
  intros scores items Hlen. split.
  - destruct (scores2recos_total scores items false) as (ri & rs & Hr); [lia|].
    eexists _, ri, rs. split; [done|].
    split; [by apply scores2recos_ranked_by|].
    pose proof (scores2recos_ascending _ _ _ _ Hr).
    auto using ascending_non_decreasing.
  - destruct (scores2recos_total scores items true) as (ri & rs & Hr); [lia|].
    eexists _, ri, rs. split; [done|].
    split; [by apply scores2recos_ranked_by|].
    pose proof (scores2recos_descending _ _ _ _ Hr).
    auto using descending_non_increasing.
Qed.

Lemma C1_scores2recos_sorted_witness :
  ∃ p items ranked,
    scores2recos [1.5; 0.25; nan; 0.25]%float [4; 3; 2; 1]%Z false =
      Ok (items, ranked) ∧
    ranked_by p [1.5; 0.25; nan; 0.25]%float [4; 3; 2; 1]%Z (items, ranked) ∧
    ascending ranked ∧ non_decreasing ranked.
Proof.
  exact (proj1 (proj1 C1_scores2recos_sorted
    [1.5; 0.25; nan; 0.25]%float [4; 3; 2; 1]%Z eq_refl)).
Defined.

(** C2, refuted as stated: whatever index array [np.argsort] returns for the
    equal scores [0.5, 0.5], the items [1, 2] do not come out in input order
    under both values of [rev]. *)
Lemma C2_not_stable_under_both_rev :
  ¬ ∃ p : list nat,
      is_argsort [0.5; 0.5]%float p ∧
      rank_with p [0.5; 0.5]%float [1; 2]%Z false =
        Ok ([1; 2]%Z, [0.5; 0.5]%float) ∧
      rank_with p [0.5; 0.5]%float [1; 2]%Z true =
        Ok ([1; 2]%Z, [0.5; 0.5]%float).
Proof.
  intros (p & _ & Hfalse & Htrue).
  apply rank_with_reverse in Hfalse. rewrite Hfalse in Htrue.
  by injection Htrue.
Qed.

(** C2, amended.  For equal-length inputs and every index array that
    [np.argsort] may return, the ranking with [rev = true] is the ranking
    with [rev = false] reversed, so two positions, in particular two with
    equal scores, never come out in the same relative order under both
    values of [rev]: equal scores keep their input order under at most one
    of them, and which one is left to the tie order of [np.argsort].  For
    scores [0.5, 0.5] over items [1, 2] one value of [rev] returns items
    [1, 2] and the other [2, 1]. *)
Theorem C2_ties_flip_with_rev :
  (∀ (scores : list float) (target_i_indices : list Z) (p : list nat),
     is_argsort scores p →
     length scores = length target_i_indices →
     ∃ items ranked,
       rank_with p scores target_i_indices false = Ok (items, ranked) ∧
       rank_with p scores target_i_indices true =
         Ok (reverse items, reverse ranked) ∧
       ranked_by (oriented p false) scores target_i_indices (items, ranked) ∧
       ranked_by (oriented p true) scores target_i_indices
         (reverse items, reverse ranked) ∧
       ∀ i j, (precedes (oriented p false) i j ↔
               precedes (oriented p true) j i) ∧
              (precedes (oriented p false) i j →
               ¬ precedes (oriented p true) i j)) ∧
  (∀ p : list nat,
     is_argsort [0.5; 0.5]%float p →
     rank_with p [0.5; 0.5]%float [1; 2]%Z false =
       Ok ([1; 2]%Z, [0.5; 0.5]%float) ∧
     rank_with p [0.5; 0.5]%float [1; 2]%Z true =
       Ok ([2; 1]%Z, [0.5; 0.5]%float)
     ∨
     rank_with p [0.5; 0.5]%float [1; 2]%Z false =
       Ok ([2; 1]%Z, [0.5; 0.5]%float) ∧
     rank_with p [0.5; 0.5]%float [1; 2]%Z true =
       Ok ([1; 2]%Z, [0.5; 0.5]%float)) ∧
  (∀ (scores : list float) (target_i_indices : list Z) (rev : bool),
     is_argsort scores (np.argsort scores) ∧
     scores2recos scores target_i_indices rev =
       rank_with (np.argsort scores) scores target_i_indices rev).
Proof.
  split_and!.
  - intros scores items p Hp Hlen. pose proof Hp as [Hperm _].
    destruct (rank_with_total p scores items false Hperm) as (ri & rs & Hr); [lia|].
    pose proof (rank_with_reverse _ _ _ _ _ Hr) as Hrev.
    exists ri, rs. split_and!; [done|done|by apply rank_with_ranked_by..|].
    intros i j. split; [apply precedes_oriented|].
    intros Hij Hij'%precedes_oriented.
    by apply (precedes_asym p i j (is_argsort_NoDup _ _ Hp)).
  - intros p [Hperm _]. simpl in Hperm. symmetry in Hperm.
    apply Permutation_length_2_inv in Hperm as [->| ->]; [left|right]; by vm_compute.
  - intros scores items rev. split; [apply argsort_is_argsort|done].
Qed.

Lemma C2_ties_flip_with_rev_witness :
  ∃ items ranked,
    rank_with [2; 0; 1] [0.5; 0.5; 0.25]%float [1; 2; 3]%Z false =
      Ok (items, ranked) ∧
    rank_with [2; 0; 1] [0.5; 0.5; 0.25]%float [1; 2; 3]%Z true =
      Ok (reverse items, reverse ranked) ∧
    (precedes (oriented [2; 0; 1] false) 0 1 →
     ¬ precedes (oriented [2; 0; 1] true) 0 1).
Proof.
  destruct (proj1 C2_ties_flip_with_rev
    [0.5; 0.5; 0.25]%float [1; 2; 3]%Z [2; 0; 1]) as (ri & rs & Hf & Ht & _ & _ & Hij).
  - split.
    + simpl. etrans; [apply Permutation_swap|]. apply perm_skip, Permutation_swap.
    + eexists. split; [reflexivity|]. repeat constructor.
  - reflexivity.
  - exists ri, rs. split_and!; [exact Hf|exact Ht|exact (proj2 (Hij 0 1))].
Defined.

(** C3, refuted as stated: three items ranked by two scores are not
    rejected; the call returns the ranking of the first two items. *)
Lemma C3_longer_items_not_rejected :
  length [0.2; 0.1]%float ≠ length [7; 8; 9]%Z ∧
  scores2recos [0.2; 0.1]%float [7; 8; 9]%Z false =
    Ok ([8; 7]%Z, [0.1; 0.2]%float).
Proof. split; [by simpl|by vm_compute]. Qed.

(** C3, amended. When [target_i_indices] is shorter than [scores], the call
    fails with [IndexError] and leaves the recommender and every array as
    they were.  When it is longer, the call does not fail: it returns the
    ranking of the first [len(scores)] items. *)
Theorem C3_length_mismatch :
  (∀ (w : World float) s t rev scores target_i_indices,
     score_arrays w !! s = Some scores →
     index_arrays w !! t = Some target_i_indices →
     length target_i_indices < length scores →
     scores2recos scores target_i_indices rev = Raise IndexError ∧
     call_scores2recos s t rev w = Some (Raise IndexError, w)) ∧
  (∀ (scores : list float) (target_i_indices : list Z) rev,
     length scores < length target_i_indices →
     ∃ r, scores2recos scores target_i_indices rev = Ok r ∧
          scores2recos scores (take (length scores) target_i_indices) rev =
            Ok r).
Proof.
  split.
  - intros w s t rev scores items Hs Ht Hlen.
    pose proof (scores2recos_Raise scores items rev Hlen) as Hr.
    split; [done|]. by rewrite (call_scores2recos_unfold w s t rev scores items), Hr.
  - intros scores items rev Hlen.
    destruct (scores2recos_total scores items rev) as (ri & rs & Hr); [lia|].
    exists (ri, rs). split; [done|].
    rewrite scores2recos_ignores_tail; [done|lia].
Qed.

Lemma C3_length_mismatch_witness :
  scores2recos [0.2; 0.1; 0.3]%float [7; 8]%Z true = Raise IndexError ∧
  call_scores2recos 0 0 true
      {| self := __init__;
         score_arrays := [[0.2; 0.1; 0.3]%float];
         index_arrays := [[7; 8]%Z] |} =
    Some (Raise IndexError,
          {| self := __init__;
             score_arrays := [[0.2; 0.1; 0.3]%float];
             index_arrays := [[7; 8]%Z] |}).
Proof.
  apply (proj1 C3_length_mismatch
    {| self := __init__;
       score_arrays := [[0.2; 0.1; 0.3]%float];
       index_arrays := [[7; 8]%Z] |} 0 0 true
    [0.2; 0.1; 0.3]%float [7; 8]%Z); [reflexivity|reflexivity|simpl; lia].
Defined.

(** C4. For equal-length inputs and either [rev], the returned pair is a
    joint permutation of the inputs: one index array [p], listing every
    position once, selects both results, so the items are the input items
    as a multiset, the scores the input scores, each item keeps its score,
    and the lengths are the inputs'; duplicate items are ranked one by
    one. *)
Theorem C4_scores2recos_joint_permutation :
  (∀ (scores : list float) (target_i_indices : list Z) (rev : bool),
     length scores = length target_i_indices →
     ∃ p items ranked,
       scores2recos scores target_i_indices rev = Ok (items, ranked) ∧
       ranked_by p scores target_i_indices (items, ranked) ∧
       items ≡ₚ target_i_indices ∧
       ranked ≡ₚ scores ∧
       zip items ranked ≡ₚ zip target_i_indices scores ∧
       length items = length target_i_indices ∧
       length ranked = length scores) ∧
  scores2recos [0.3; 0.1; 0.2]%float [5; 5; 6]%Z false =
    Ok ([5; 6; 5]%Z, [0.1; 0.2; 0.3]%float).
Proof.
  split; [|by vm_compute].
  intros scores items rev Hlen.
  destruct (scores2recos_total scores items rev) as (ri & rs & Hr); [lia|].
  pose proof (scores2recos_ranked_by _ _ _ _ Hr) as Hp.
  destruct (ranked_by_perm _ _ _ _ _ Hlen Hp) as (Hi & Hs & Hz).
  eexists _, ri, rs. split_and!; [done..| |].
  - by rewrite Hi.
  - by rewrite Hs.
Qed.

Lemma C4_scores2recos_joint_permutation_witness :
  ∃ p items ranked,
    scores2recos [0.3; 0.1; 0.1]%float [5; 5; 6]%Z true = Ok (items, ranked) ∧
    ranked_by p [0.3; 0.1; 0.1]%float [5; 5; 6]%Z (items, ranked) ∧
    items ≡ₚ [5; 5; 6]%Z ∧
    ranked ≡ₚ [0.3; 0.1; 0.1]%float ∧
    zip items ranked ≡ₚ zip [5; 5; 6]%Z [0.3; 0.1; 0.1]%float ∧
    length items = length [5; 5; 6]%Z ∧
    length ranked = length [0.3; 0.1; 0.1]%float.
Proof.
  exact (proj1 C4_scores2recos_joint_permutation
    [0.3; 0.1; 0.1]%float [5; 5; 6]%Z true eq_refl).
Defined.

(** C9. For equal-length inputs, the pair returned with [rev = true] is the
    pair returned with [rev = false] with both sequences reversed. *)
Theorem C9_rev_is_reversal (scores : list float) (target_i_indices : list Z) :
  length scores = length target_i_indices →
  ∃ items ranked,
    scores2recos scores target_i_indices false = Ok (items, ranked) ∧
    scores2recos scores target_i_indices true =
      Ok (reverse items, reverse ranked).
Proof.
  intros Hlen.
  destruct (scores2recos_total scores target_i_indices false)
    as (ri & rs & Hr); [lia|].
  exists ri, rs. split; [done|]. by apply scores2recos_reverse.
Qed.

Lemma C9_rev_is_reversal_witness :
  ∃ items ranked,
    scores2recos [0.3; 0.1; 0.2]%float [7; 8; 9]%Z false = Ok (items, ranked) ∧
    scores2recos [0.3; 0.1; 0.2]%float [7; 8; 9]%Z true =
      Ok (reverse items, reverse ranked).
Proof.
  exact (C9_rev_is_reversal [0.3; 0.1; 0.2]%float [7; 8; 9]%Z eq_refl).
Defined.

(** C10. A call of [scores2recos] leaves the recommender state as it was
    and changes no array that existed before it, its two arguments
    included; the two arrays it returns are new objects holding the ranked
    items and scores. *)
Theorem C10_scores2recos_frame (w : World float) (s t : nat) (rev : bool)
    (scores : list float) (target_i_indices : list Z) :
  score_arrays w !! s = Some scores →
  index_arrays w !! t = Some target_i_indices →
  ∃ r w',
    call_scores2recos s t rev w = Some (r, w') ∧
    self w' = self w ∧
    score_arrays w' !! s = Some scores ∧
    index_arrays w' !! t = Some target_i_indices ∧
    (∀ l a, score_arrays w !! l = Some a → score_arrays w' !! l = Some a) ∧
    (∀ l a, index_arrays w !! l = Some a → index_arrays w' !! l = Some a) ∧
    match r with
    | Ok (ri, rs) =>
        index_arrays w !! ri = None ∧
        score_arrays w !! rs = None ∧
        ∃ items ranked,
          scores2recos scores target_i_indices rev = Ok (items, ranked) ∧
          index_arrays w' !! ri = Some items ∧
          score_arrays w' !! rs = Some ranked
    | Raise _ => w' = w
    end.
Proof.
  intros Hs Ht.
  rewrite (call_scores2recos_unfold w s t rev scores target_i_indices Hs Ht).
  destruct (scores2recos scores target_i_indices rev) as [[ri rs]|e].
  - eexists _, _. split; [done|]. simpl.
    split_and!; try done.
    + by apply lookup_app_l_Some.
    + by apply lookup_app_l_Some.
    + intros l a. apply lookup_app_l_Some.
    + intros l a. apply lookup_app_l_Some.
    + by apply lookup_ge_None.
    + by apply lookup_ge_None.
    + exists ri, rs. split; [done|].
      by rewrite !lookup_app_r, !Nat.sub_diag.
  - eexists _, _. split; [done|]. by split_and!.
Qed.

Lemma C10_scores2recos_frame_witness :
  ∃ r w',
    call_scores2recos 0 0 false
      {| self := __init__;
         score_arrays := [[0.3; 0.1; 0.2]%float];
         index_arrays := [[7; 8; 9]%Z] |} = Some (r, w') ∧
    self w' = __init__ ∧
    score_arrays w' !! 0 = Some [0.3; 0.1; 0.2]%float ∧
    index_arrays w' !! 0 = Some [7; 8; 9]%Z.
Proof.
  destruct (C10_scores2recos_frame
    {| self := __init__;
       score_arrays := [[0.3; 0.1; 0.2]%float];
       index_arrays := [[7; 8; 9]%Z] |} 0 0 false
    [0.3; 0.1; 0.2]%float [7; 8; 9]%Z eq_refl eq_refl)
    as (r & w' & Hcall & Hself & Hs & Ht & _).
  exists r, w'. split_and!; assumption.
Defined.

(** * The entity registry *)

Lemma is_new_user_run (u : Z) (self : Recommender) :
  is_new_user u self = (Ok (bool_decide (u ∉ dom (users self))), self).
Proof. reflexivity. Qed.

Lemma is_new_item_run (i : Z) (self : Recommender) :
  is_new_item i self = (Ok (bool_decide (i ∉ dom (items self))), self).
Proof. reflexivity. Qed.

Lemma add_user_run (user : User.t) (self : Recommender) :
  add_user user self =
    (Ok tt,
     {| n_user := n_user self + 1;
        users := <[User.index user := {["observed" := VSet ∅]}]> (users self);
        n_item := n_item self;
        items := items self |}).
Proof. reflexivity. Qed.

Lemma add_item_run (item : Item.t) (self : Recommender) :
  add_item item self =
    (Ok tt,
     {| n_user := n_user self;
        users := users self;
        n_item := n_item self + 1;
        items := <[Item.index item := ∅]> (items self) |}).
Proof. reflexivity. Qed.

Lemma is_new_user_true (u : Z) (self : Recommender) :
  is_new_user u self = (Ok true, self) ↔ users self !! u = None.
Proof.
  rewrite is_new_user_run, <-not_elem_of_dom. split.
  - intros [= Hb]. by apply bool_decide_eq_true in Hb.
  - intros Hu. by rewrite bool_decide_eq_true_2.
Qed.

Lemma is_new_item_true (i : Z) (self : Recommender) :
  is_new_item i self = (Ok true, self) ↔ items self !! i = None.
Proof.
  rewrite is_new_item_run, <-not_elem_of_dom. split.
  - intros [= Hb]. by apply bool_decide_eq_true in Hb.
  - intros Hi. by rewrite bool_decide_eq_true_2.
Qed.

Section registry_maps.
Context {V : Type}.
Implicit Types (m : gmap Z V).

(** Assigning to a key that is absent adds exactly that key. *)
Lemma assign_new m k v :
  m !! k = None →
  dom (<[k := v]> m) = {[k]} ∪ dom m ∧ (k ∉ dom m) ∧
  size (<[k := v]> m) = S (size m) ∧
  ∀ k', k' ≠ k → <[k := v]> m !! k' = m !! k'.
Proof.
  intros Hk. split_and!.
  - apply dom_insert_L.
  - by apply not_elem_of_dom.
  - by apply map_size_insert_None.
  - intros k' ?. by apply lookup_insert_ne.
Qed.

(** Assigning to a key that is present replaces its value and adds no
    key. *)
Lemma assign_old m k v :
  k ∈ dom m →
  dom (<[k := v]> m) = dom m ∧ size (<[k := v]> m) = size m ∧
  ∀ k', k' ≠ k → <[k := v]> m !! k' = m !! k'.
Proof.
  intros Hk. split_and!.
  - rewrite dom_insert_L. apply set_eq. intros k'.
    rewrite elem_of_union, elem_of_singleton. split; [|by right].
    by intros [->|?].
  - by apply map_size_insert_Some, elem_of_dom.
  - intros k' ?. by apply lookup_insert_ne.
Qed.
End registry_maps.

(** C5, refuted as stated: the second [add_item] for item index 42 returns
    normally and increments [n_item] to 2, with one key in [items]. *)
Lemma C5_add_item_twice_not_rejected :
  (add_item (Item.mk 42);; add_item (Item.mk 42)) __init__ =
    (Ok tt, {| n_user := 0; users := ∅; n_item := 2; items := {[42%Z := ∅]} |}).
Proof. by vm_compute. Qed.

(** C5, amended. [add_item] for an index that is already registered is not
    rejected: it returns normally, replaces the stored record by the empty
    record, adds no key to [items] and increments [n_item] again; and
    [add_user] likewise, the record becoming [{observed: empty set}]. *)
Theorem C5_add_registered_overwrites :
  (∀ (self : Recommender) (item : Item.t),
     Item.index item ∈ dom (items self) →
     ∃ self',
       add_item item self = (Ok tt, self') ∧
       n_item self' = (n_item self + 1)%Z ∧
       items self' !! Item.index item = Some ∅ ∧
       dom (items self') = dom (items self) ∧
       size (items self') = size (items self) ∧
       (∀ i, i ≠ Item.index item → items self' !! i = items self !! i) ∧
       users self' = users self ∧ n_user self' = n_user self) ∧
  (∀ (self : Recommender) (user : User.t),
     User.index user ∈ dom (users self) →
     ∃ self',
       add_user user self = (Ok tt, self') ∧
       n_user self' = (n_user self + 1)%Z ∧
       users self' !! User.index user = Some {["observed" := VSet ∅]} ∧
       dom (users self') = dom (users self) ∧
       size (users self') = size (users self) ∧
       (∀ u, u ≠ User.index user → users self' !! u = users self !! u) ∧
       items self' = items self ∧ n_item self' = n_item self).
Proof.
  split.
  - intros self item Hi. eexists. split; [apply add_item_run|]. simpl.
    destruct (assign_old (items self) (Item.index item) ∅ Hi) as (?&?&?).
    split_and!; try done. apply lookup_insert_eq.
  - intros self user Hu. eexists. split; [apply add_user_run|]. simpl.
    destruct (assign_old (users self) (User.index user)
                {["observed" := VSet ∅]} Hu) as (?&?&?).
    split_and!; try done. apply lookup_insert_eq.
Qed.

Lemma C5_add_registered_overwrites_witness :
  ∃ self',
    add_item (Item.mk 42) (add_item (Item.mk 42) __init__).2 = (Ok tt, self') ∧
    n_item self' = 2%Z ∧ size (items self') = 1.
Proof.
  destruct (proj1 C5_add_registered_overwrites
    (add_item (Item.mk 42) __init__).2 (Item.mk 42))
    as (self' & Hrun & Hn & _ & _ & Hsize & _).
  { apply elem_of_dom. exists ∅. reflexivity. }
  exists self'. split_and!; [exact Hrun|exact Hn|exact Hsize].
Defined.

(** ** Calls and the recommender state *)

Section calls.
Context {score : Type} `{np.Less score}.
Implicit Types (w : World score) (c : call score).

Lemma call_scores2recos_self s t rev w r w' :
  call_scores2recos s t rev w = Some (r, w') → self w' = self w.
Proof.
  unfold call_scores2recos.
  destruct (score_arrays w !! s) as [scores|]; [|done].
  destruct (index_arrays w !! t) as [items|]; [|done]. simpl.
  destruct (scores2recos scores items rev) as [[ri rs]|e]; by intros [= <- <-].
Qed.

(** The state of the recommender after one call. *)
Lemma exec_self c w w' :
  exec c w = Some w' →
  self w' =
    match c with
    | Call_add_user user => (add_user user (self w)).2
    | Call_add_item item => (add_item item (self w)).2
    | _ => self w
    end.
Proof.
  destruct c; simpl; try by intros [= <-].
  destruct (call_scores2recos _ _ _ w) as [[r w'']|] eqn:Hcall; [|done].
  intros [= <-]. by eapply call_scores2recos_self.
Qed.

Lemma exec_counts_match c w w' :
  guarded_call c w → exec c w = Some w' →
  counts_match (self w) → counts_match (self w').
Proof.
  intros Hok Hexec [Hu Hi]. rewrite (exec_self c w w' Hexec).
  destruct c; try done; unfold counts_match, guarded_call in *.
  - rewrite is_new_user_run in Hok. rewrite add_user_run. simpl in *.
    injection Hok as Hok. apply bool_decide_eq_true in Hok.
    apply not_elem_of_dom in Hok.
    rewrite map_size_insert_None by done. split; [lia|done].
  - rewrite is_new_item_run in Hok. rewrite add_item_run. simpl in *.
    injection Hok as Hok. apply bool_decide_eq_true in Hok.
    apply not_elem_of_dom in Hok.
    rewrite map_size_insert_None by done. split; [done|lia].
Qed.

Lemma runs_counts_match w cs w' :
  runs guarded_call w cs w' →
  counts_match (self w) → counts_match (self w').
Proof.
  induction 1 as [|w c w1 cs w2 Hok Hexec _ IH]; [done|].
  intros Hw. by eapply IH, exec_counts_match.
Qed.

Lemma runs_user_still_new (u : Z) w cs w' :
  runs any_call w cs w' →
  (∀ user, Call_add_user user ∈ cs → User.index user ≠ u) →
  users (self w) !! u = None → users (self w') !! u = None.
Proof.
  induction 1 as [|w c w1 cs w2 _ Hexec _ IH]; [done|].
  intros Hcs Hu. apply IH.
  { intros user ?. apply Hcs. by right. }
  rewrite (exec_self c w w1 Hexec). destruct c; try done. simpl.
  rewrite lookup_insert_ne; [done|]. apply Hcs. by left.
Qed.

Lemma runs_item_still_new (i : Z) w cs w' :
  runs any_call w cs w' →
  (∀ item, Call_add_item item ∈ cs → Item.index item ≠ i) →
  items (self w) !! i = None → items (self w') !! i = None.
Proof.
  induction 1 as [|w c w1 cs w2 _ Hexec _ IH]; [done|].
  intros Hcs Hi. apply IH.
  { intros item ?. apply Hcs. by right. }
  rewrite (exec_self c w w1 Hexec). destruct c; try done. simpl.
  rewrite lookup_insert_ne; [done|]. apply Hcs. by left.
Qed.
End calls.

(** C6, refuted as stated: after [add_user] twice for user index 7,
    [n_user] is 2 and [users] has one key. *)
Lemma C6_counts_diverge :
  ∃ w : World float,
    runs any_call new_world
      [Call_add_user (User.mk 7); Call_add_user (User.mk 7)] w ∧
    n_user (self w) = 2%Z ∧ size (users (self w)) = 1 ∧
    ¬ counts_match (self w).
Proof.
  eexists. split.
  { eapply runs_cons; [done|reflexivity|].
    eapply runs_cons; [done|reflexivity|]. apply runs_nil. }
  split_and!; [by vm_compute..|].
  intros [Hu _]. vm_compute in Hu. discriminate Hu.
Qed.

(** C6, amended. [n_user == |users|] and [n_item == |items|] hold in the
    fresh state and are preserved by every call that respects the
    precondition of [add_user] and [add_item] (the index is new when the
    method is called); so they hold in every state reached by such calls. *)
Theorem C6_counts_match_when_guarded :
  counts_match __init__ ∧
  (∀ (w w' : World float) (c : call float),
     guarded_call c w → exec c w = Some w' →
     counts_match (self w) → counts_match (self w')) ∧
  (∀ (w : World float) (cs : list (call float)),
     runs guarded_call new_world cs w → counts_match (self w)).
Proof.
  assert (counts_match __init__) as Hinit by (by split).
  split_and!; [done|intros w w' c; apply exec_counts_match|].
  intros w cs Hruns. by apply (runs_counts_match new_world cs w).
Qed.

Lemma C6_counts_match_when_guarded_witness :
  ∃ w : World float,
    runs guarded_call new_world
      [Call_add_user (User.mk 7); Call_is_new_user 7; Call_add_item (Item.mk 42);
       New_scores [0.5]%float; New_indices [42]%Z; Call_scores2recos 0 0 true] w ∧
    counts_match (self w).
Proof.
  assert (∃ w : World float, runs guarded_call new_world
      [Call_add_user (User.mk 7); Call_is_new_user 7; Call_add_item (Item.mk 42);
       New_scores [0.5]%float; New_indices [42]%Z; Call_scores2recos 0 0 true] w)
    as [w Hw].
  { eexists. repeat (eapply runs_cons; [reflexivity|reflexivity|]). apply runs_nil. }
  exists w. split; [exact Hw|].
  exact (proj2 (proj2 C6_counts_match_when_guarded) w _ Hw).
Defined.

(** C7. For a user whose index is new, [add_user] creates exactly the entry
    [users[user.index] = {observed: empty set}], increments [n_user] by one
    and adds one key to [users], leaving every other user record, [items]
    and [n_item] as they were; and [add_item] does the same for [items] and
    [n_item], the new entry being the empty record. *)
Theorem C7_add_new_entity :
  (∀ (self : Recommender) (user : User.t),
     is_new_user (User.index user) self = (Ok true, self) →
     ∃ self',
       add_user user self = (Ok tt, self') ∧
       users self' = <[User.index user := {["observed" := VSet ∅]}]> (users self) ∧
       users self' !! User.index user = Some {["observed" := VSet ∅]} ∧
       n_user self' = (n_user self + 1)%Z ∧
       dom (users self') = {[User.index user]} ∪ dom (users self) ∧
       (User.index user ∉ dom (users self)) ∧
       size (users self') = S (size (users self)) ∧
       (∀ u, u ≠ User.index user → users self' !! u = users self !! u) ∧
       items self' = items self ∧ n_item self' = n_item self) ∧
  (∀ (self : Recommender) (item : Item.t),
     is_new_item (Item.index item) self = (Ok true, self) →
     ∃ self',
       add_item item self = (Ok tt, self') ∧
       items self' = <[Item.index item := ∅]> (items self) ∧
       items self' !! Item.index item = Some ∅ ∧
       n_item self' = (n_item self + 1)%Z ∧
       dom (items self') = {[Item.index item]} ∪ dom (items self) ∧
       (Item.index item ∉ dom (items self)) ∧
       size (items self') = S (size (items self)) ∧
       (∀ i, i ≠ Item.index item → items self' !! i = items self !! i) ∧
       users self' = users self ∧ n_user self' = n_user self).
Proof.
  split.
  - intros self user Hnew%is_new_user_true.
    eexists. split; [apply add_user_run|]. simpl.
    destruct (assign_new (users self) (User.index user)
                {["observed" := VSet ∅]} Hnew) as (?&?&?&?).
    split_and!; try done. apply lookup_insert_eq.
  - intros self item Hnew%is_new_item_true.
    eexists. split; [apply add_item_run|]. simpl.
    destruct (assign_new (items self) (Item.index item) ∅ Hnew) as (?&?&?&?).
    split_and!; try done. apply lookup_insert_eq.
Qed.

Lemma C7_add_new_entity_witness :
  ∃ self',
    add_user (User.mk 3) (add_item (Item.mk 42) __init__).2 = (Ok tt, self') ∧
    users self' = {[3%Z := {["observed" := VSet ∅]}]} ∧
    n_user self' = 1%Z ∧ size (users self') = 1 ∧
    items self' = {[42%Z := ∅]} ∧ n_item self' = 1%Z.
Proof.
  destruct (proj1 C7_add_new_entity
    (add_item (Item.mk 42) __init__).2 (User.mk 3) eq_refl)
    as (self' & Hrun & Husers & _ & Hn & _ & _ & Hsize & _ & Hitems & Hni).
  exists self'. split_and!;
    [exact Hrun|exact Husers|exact Hn|exact Hsize|exact Hitems|exact Hni].
Defined.

(** C8. [is_new_user(u)] returns true in every state reached from the fresh
    one by calls among which no [add_user] has index [u], the fresh state
    included; it returns false right after [add_user] for that index; and
    it leaves the state as it was.  [is_new_item] behaves the same way for
    item indices. *)
Theorem C8_is_new_tracks_registration :
  (∀ (w : World float) (cs : list (call float)) (u : Z),
     runs any_call new_world cs w →
     (∀ user, Call_add_user user ∈ cs → User.index user ≠ u) →
     is_new_user u (self w) = (Ok true, self w)) ∧
  (∀ u, is_new_user u __init__ = (Ok true, __init__)) ∧
  (∀ (self : Recommender) (user : User.t),
     ∃ self', add_user user self = (Ok tt, self') ∧
              is_new_user (User.index user) self' = (Ok false, self')) ∧
  (∀ (self : Recommender) (u : Z), (is_new_user u self).2 = self) ∧
  (∀ (w : World float) (cs : list (call float)) (i : Z),
     runs any_call new_world cs w →
     (∀ item, Call_add_item item ∈ cs → Item.index item ≠ i) →
     is_new_item i (self w) = (Ok true, self w)) ∧
  (∀ i, is_new_item i __init__ = (Ok true, __init__)) ∧
  (∀ (self : Recommender) (item : Item.t),
     ∃ self', add_item item self = (Ok tt, self') ∧
              is_new_item (Item.index item) self' = (Ok false, self')) ∧
  (∀ (self : Recommender) (i : Z), (is_new_item i self).2 = self).
Proof.
  split_and!.
  - intros w cs u Hruns Hcs. apply is_new_user_true.
    by apply (runs_user_still_new u new_world cs w).
  - intros u. by apply is_new_user_true.
  - intros self user. eexists. split; [apply add_user_run|].
    rewrite is_new_user_run. simpl. rewrite bool_decide_eq_false_2; [done|].
    intros Hnot. apply Hnot, elem_of_dom. rewrite lookup_insert_eq. by eexists.
  - done.
  - intros w cs i Hruns Hcs. apply is_new_item_true.
    by apply (runs_item_still_new i new_world cs w).
  - intros i. by apply is_new_item_true.
  - intros self item. eexists. split; [apply add_item_run|].
    rewrite is_new_item_run. simpl. rewrite bool_decide_eq_false_2; [done|].
    intros Hnot. apply Hnot, elem_of_dom. rewrite lookup_insert_eq. by eexists.
  - done.
Qed.

Lemma C8_is_new_tracks_registration_witness :
  ∃ w : World float,
    runs any_call new_world
      [Call_add_user (User.mk 7); Call_add_item (Item.mk 8);
       Call_add_user (User.mk 7)] w ∧
    is_new_user 8 (self w) = (Ok true, self w).
Proof.
  assert (∃ w : World float, runs any_call new_world
      [Call_add_user (User.mk 7); Call_add_item (Item.mk 8);
       Call_add_user (User.mk 7)] w) as [w Hw].
  { eexists. repeat (eapply runs_cons; [exact I|reflexivity|]). apply runs_nil. }
  exists w. split; [exact Hw|].
  apply (proj1 C8_is_new_tracks_registration w _ 8%Z Hw).
  intros user Hin.
  repeat (apply elem_of_cons in Hin as [Hin|Hin];
          [try discriminate Hin; injection Hin as ->; simpl; lia|]).
  by apply elem_of_nil in Hin.
Defined.

(** * Further properties of the ranking step *)

Section ranking_more.
Context {score : Type} `{np.Less score}.
Implicit Types (scores : list score) (items : list Z) (p : list nat).

Lemma rank_with_length p scores items rev ri rs :
  p ≡ₚ seq 0 (length scores) →
  rank_with p scores items rev = Ok (ri, rs) →
  length ri = length scores ∧ length rs = length scores.
Proof.
  intros Hp. rewrite rank_with_Ok, !getitem_Ok. intros [Hi Hs].
  apply Forall2_length in Hi, Hs.
  rewrite <-Hi, <-Hs, (oriented_perm p rev _ Hp), length_seq. done.
Qed.

Lemma rank_with_Ok_le p scores items rev r :
  p ≡ₚ seq 0 (length scores) →
  rank_with p scores items rev = Ok r → length scores ≤ length items.
Proof.
  intros Hp Hr. destruct (decide (length scores ≤ length items)); [done|].
  rewrite rank_with_Raise in Hr; [done..|lia].
Qed.

Lemma getitem_seq {B} (a : list B) n :
  n ≤ length a → np.getitem a (seq 0 n) = Ok (take n a).
Proof.
  intros Hn. apply getitem_Ok, Forall2_same_length_lookup. split.
  - rewrite length_seq, length_take. lia.
  - intros i j x [-> Hi]%lookup_seq Hx. simpl.
    by rewrite lookup_take_lt in Hx.
Qed.

Lemma scores2recos_length scores items rev ri rs :
  scores2recos scores items rev = Ok (ri, rs) →
  length ri = length scores ∧ length rs = length scores.
Proof. apply rank_with_length, argsort_perm. Qed.

Lemma getitem_fmap {B C} (f : B → C) (a : list B) p r :
  np.getitem a p = Ok r → np.getitem (f <$> a) p = Ok (f <$> r).
Proof.
  rewrite !getitem_Ok. intros Hr. apply Forall2_fmap_r.
  eapply Forall2_impl; [done|]. intros i x Hx. simpl.
  by rewrite list_lookup_fmap, Hx.
Qed.
End ranking_more.

Section ranking_first.
Context {score : Type} `{np.StrictWeakOrder score}.
Implicit Types (scores : list score) (items : list Z).

(** The first returned pair is an input pair with an extreme score. *)
Lemma scores2recos_first scores items rev i0 ri s0 rs :
  scores2recos scores items rev = Ok (i0 :: ri, s0 :: rs) →
  (∀ s, s ∈ scores →
     (if rev then np.less s0 s else np.less s s0) = false) ∧
  ∃ k, items !! k = Some i0 ∧ scores !! k = Some s0.
Proof.
  intros Hr. pose proof (scores2recos_ranked_by _ _ _ _ Hr) as (Hp & Hi & Hs).
  simpl in Hi, Hs. revert Hp Hi Hs.
  generalize (oriented (np.argsort scores) rev). intros q Hp Hi Hs. split.
  - intros s Hin. rewrite <-(getitem_perm scores _ _ Hp Hs) in Hin.
    apply elem_of_cons in Hin as [->|Hin].
    { destruct rev; apply less_irrefl. }
    destruct rev.
    + apply scores2recos_descending, StronglySorted_cons in Hr as [Hall _].
      rewrite Forall_forall in Hall. by apply Hall.
    + apply scores2recos_ascending, StronglySorted_cons in Hr as [Hall _].
      rewrite Forall_forall in Hall. by apply Hall.
  - inv Hi as [|k ? q' ? Hk Hi']. inv Hs as [|? ? ? ? Hk' Hs']. by exists k.
Qed.
End ranking_first.

Lemma float64_less_false_nan (x y : float) :
  np.less y x = false → is_nan x = true → is_nan y = true.
Proof.
  unfold np.less, np.float64_less, is_nan.
  intros [_ Hnan]%orb_false_elim Hx. rewrite Hx in Hnan. simpl in Hnan.
  by rewrite Hnan.
Qed.

(** X1. [scores2recos] returns a result exactly when [scores] is no longer
    than [target_i_indices], and raises [IndexError] exactly when it is
    longer. *)
Theorem X1_scores2recos_raises_iff (scores : list float)
    (target_i_indices : list Z) (rev : bool) :
  (length scores ≤ length target_i_indices ↔
     ∃ r, scores2recos scores target_i_indices rev = Ok r) ∧
  (length target_i_indices < length scores ↔
     scores2recos scores target_i_indices rev = Raise IndexError).
Proof.
  split; split.
  - intros Hlen.
    destruct (scores2recos_total scores target_i_indices rev Hlen) as (ri & rs & Hr).
    by exists (ri, rs).
  - intros [r Hr]. eapply rank_with_Ok_le; [apply argsort_perm|done].
  - apply scores2recos_Raise.
  - intros Hr. destruct (decide (length scores ≤ length target_i_indices)); [|lia].
    destruct (scores2recos_total scores target_i_indices rev) as (ri & rs & Hr');
      [done|congruence].
Qed.

(** X2. Whenever [scores2recos] returns, both returned arrays have the
    length of [scores], also when [target_i_indices] is longer. *)
Theorem X2_scores2recos_lengths (scores : list float)
    (target_i_indices : list Z) (rev : bool) (items : list Z)
    (ranked : list float) :
  scores2recos scores target_i_indices rev = Ok (items, ranked) →
  length items = length scores ∧ length ranked = length scores.
Proof. apply scores2recos_length. Qed.

Lemma X2_scores2recos_lengths_witness :
  length [8; 7]%Z = length [0.2; 0.1]%float ∧
  length [0.1; 0.2]%float = length [0.2; 0.1]%float.
Proof.
  exact (X2_scores2recos_lengths [0.2; 0.1]%float [7; 8; 9]%Z false
           [8; 7]%Z [0.1; 0.2]%float eq_refl).
Defined.

(** X5. The first returned item is an input item paired with its own score,
    and that score is extreme: with [rev = false] no input score is smaller
    (it is [<=] every score that is not NaN), with [rev = true] no input
    score is greater. *)
Theorem X5_best_first (scores : list float) (target_i_indices : list Z)
    (rev : bool) (item : Z) (items : list Z) (best : float)
    (ranked : list float) :
  scores2recos scores target_i_indices rev = Ok (item :: items, best :: ranked) →
  (∃ k, target_i_indices !! k = Some item ∧ scores !! k = Some best) ∧
  ∀ s, s ∈ scores →
    if rev
    then (best <? s)%float = false ∧
         (is_nan best = false → (s <=? best)%float = true)
    else (s <? best)%float = false ∧
         (is_nan s = false → (best <=? s)%float = true).
Proof.
  intros Hr. destruct (scores2recos_first _ _ _ _ _ _ _ Hr) as [Hall Hk].
  split; [done|]. intros s Hin. specialize (Hall s Hin).
  destruct rev; by apply float64_less_false.
Qed.

Lemma X5_best_first_witness :
  (∃ k, [7; 8; 9]%Z !! k = Some 8%Z ∧
        [0.3; 0.1; 0.2]%float !! k = Some 0.1%float) ∧
  ∀ s, s ∈ [0.3; 0.1; 0.2]%float →
    (s <? 0.1)%float = false ∧ (is_nan s = false → (0.1 <=? s)%float = true).
Proof.
  exact (X5_best_first [0.3; 0.1; 0.2]%float [7; 8; 9]%Z false
           8%Z [9; 7]%Z 0.1%float [0.2; 0.3]%float eq_refl).
Defined.

(** X6. NaN scores are ranked after every number with [rev = false] and
    before every number with [rev = true]. *)
Theorem X6_nan_placement (scores : list float) (target_i_indices : list Z)
    (rev : bool) (items : list Z) (ranked : list float) :
  scores2recos scores target_i_indices rev = Ok (items, ranked) →
  ∀ i j x y, i < j → ranked !! i = Some x → ranked !! j = Some y →
    if rev then is_nan y = true → is_nan x = true
    else is_nan x = true → is_nan y = true.
Proof.
  intros Hr i j x y Hij Hx Hy. destruct rev.
  - apply scores2recos_descending in Hr.
    apply float64_less_false_nan.
    by apply (StronglySorted_lookup_lt (λ x y, np.less x y = false) ranked i j).
  - apply scores2recos_ascending in Hr.
    apply float64_less_false_nan.
    by apply (StronglySorted_lookup_lt (λ x y, np.less y x = false) ranked i j).
Qed.

Lemma X6_nan_placement_witness : is_nan nan = true.
Proof.
  exact (X6_nan_placement [nan; 0.5; nan]%float [1; 2; 3]%Z false
           [2; 1; 3]%Z [0.5; nan; nan]%float eq_refl
           1 2 nan nan (Nat.lt_succ_diag_r 1) eq_refl eq_refl eq_refl).
Defined.

(** X7. The ranking depends on the scores only: renaming the items by any
    function renames the returned items and leaves the returned scores and
    their order as they are. *)
Theorem X7_items_are_opaque (scores : list float) (target_i_indices : list Z)
    (rev : bool) (items : list Z) (ranked : list float) (f : Z → Z) :
  scores2recos scores target_i_indices rev = Ok (items, ranked) →
  scores2recos scores (f <$> target_i_indices) rev = Ok (f <$> items, ranked).
Proof.
  rewrite !scores2recos_rank_with, !rank_with_Ok.
  intros [Hi Hs]. split; [by apply getitem_fmap|done].
Qed.

Lemma X7_items_are_opaque_witness :
  scores2recos [0.3; 0.1; 0.2]%float (Z.succ <$> [7; 8; 9]%Z) false =
    Ok (Z.succ <$> [8; 9; 7]%Z, [0.1; 0.2; 0.3]%float).
Proof.
  exact (X7_items_are_opaque [0.3; 0.1; 0.2]%float [7; 8; 9]%Z false
           [8; 9; 7]%Z [0.1; 0.2; 0.3]%float Z.succ eq_refl).
Defined.

(** * Further properties of the registry *)

Lemma size_list_to_set_le (l : list Z) :
  size (list_to_set (C := gset Z) l) ≤ length l.
Proof.
  induction l as [|x l IH].
  { by rewrite list_to_set_nil, size_empty. }
  rewrite list_to_set_cons. simpl.
  destruct (decide (x ∈ l)) as [Hin|Hnotin].
  - replace ({[x]} ∪ list_to_set l : gset Z) with (list_to_set l : gset Z)
      by set_solver. lia.
  - rewrite size_union, size_singleton by set_solver. lia.
Qed.

Lemma size_list_to_set_NoDup (l : list Z) :
  size (list_to_set (C := gset Z) l) = length l ↔ NoDup l.
Proof.
  split; [|apply size_list_to_set].
  induction l as [|x l IH]; [constructor|].
  rewrite list_to_set_cons. simpl. intros Hsize.
  pose proof (size_list_to_set_le l) as Hle.
  destruct (decide (x ∈ l)) as [Hin|Hnotin].
  - replace ({[x]} ∪ list_to_set l : gset Z) with (list_to_set l : gset Z)
      in Hsize by set_solver. lia.
  - constructor; [done|]. apply IH.
    rewrite size_union, size_singleton in Hsize by set_solver. lia.
Qed.

(** Registering [k] and then the keys [l] is registering [k :: l]. *)
Lemma registered_insert {V} (rec : V) (k : Z) (l : list Z) (m : gmap Z V) :
  gset_to_gmap rec (list_to_set l) ∪ <[k := rec]> m =
  gset_to_gmap rec (list_to_set (k :: l)) ∪ m.
Proof.
  apply map_eq. intros i.
  rewrite !lookup_union, !lookup_gset_to_gmap, list_to_set_cons.
  destruct (decide (i = k)) as [->|Hne].
  - rewrite lookup_insert_eq. repeat case_guard; try set_solver.
    + by destruct (m !! k).
    + by destruct (m !! k).
  - rewrite lookup_insert_ne by done. repeat case_guard; set_solver.
Qed.

Section method_facts.
Context {score Event : Type} `{np.Less score}.
Implicit Types (w : World score) (m : method score Event)
  (ms : list (method score Event)).

(** The recommender after one call of any method. *)
Lemma exec_method_self m w w' :
  exec_method m w = Some w' →
  self w' =
    match m with
    | Call (Call_add_user user) => (add_user user (self w)).2
    | Call (Call_add_item item) => (add_item item (self w)).2
    | _ => self w
    end.
Proof.
  destruct m as [c| | | | |]; simpl; try by intros [= <-].
  intros Hexec. rewrite (exec_self c w w' Hexec). by destruct c.
Qed.

(** The arrays after one call of any method: none is changed or dropped. *)
Lemma exec_method_arrays m w w' :
  exec_method m w = Some w' →
  score_arrays w `prefix_of` score_arrays w' ∧
  index_arrays w `prefix_of` index_arrays w'.
Proof.
  destruct m as [c| | | | |]; simpl; try by intros [= <-].
  destruct c; simpl; try (by intros [= <-]);
    try (intros [= <-]; simpl; split; (done || by apply prefix_app_r)).
  unfold call_scores2recos.
  destruct (score_arrays w !! scores) as [s|]; [|done].
  destruct (index_arrays w !! target_i_indices) as [t|]; [|done]. simpl.
  destruct (scores2recos s t rev) as [[ri rs]|e]; intros [= <-]; simpl;
    split; (done || by apply prefix_app_r).
Qed.

Lemma method_runs_arrays w ms w' :
  method_runs w ms w' →
  score_arrays w `prefix_of` score_arrays w' ∧
  index_arrays w `prefix_of` index_arrays w'.
Proof.
  induction 1 as [|w m w1 ms w2 Hexec _ [IHs IHi]]; [done|].
  destruct (exec_method_arrays m w w1 Hexec) as [Hs Hi].
  split; by etrans.
Qed.

(** The registry after a sequence of calls, from any state. *)
Lemma method_runs_registry w ms w' :
  method_runs w ms w' →
  n_user (self w') = (n_user (self w) + Z.of_nat (length (added_users ms)))%Z ∧
  n_item (self w') = (n_item (self w) + Z.of_nat (length (added_items ms)))%Z ∧
  users (self w') =
    gset_to_gmap {["observed" := VSet ∅]} (list_to_set (added_users ms))
      ∪ users (self w) ∧
  items (self w') =
    gset_to_gmap ∅ (list_to_set (added_items ms)) ∪ items (self w).
Proof.
  induction 1 as [|w m w1 ms w2 Hexec _ (IHnu & IHni & IHu & IHi)].
  { simpl. rewrite !gset_to_gmap_empty, !(left_id_L ∅ (∪)).
    split_and!; [lia..|done|done]. }
  rewrite IHnu, IHni, IHu, IHi, (exec_method_self m w w1 Hexec).
  destruct m as [[]| | | | |]; simpl;
    rewrite ?add_user_run, ?add_item_run; simpl;
    split_and!; try done; try lia.
  - apply registered_insert.
  - apply registered_insert.
Qed.
End method_facts.

Section method_invariants.
Context {score Event : Type} `{np.Less score}.
Implicit Types (w : World score) (ms : list (method score Event)).

(** The registry reached from the fresh state. *)
Lemma method_runs_fresh ms w :
  method_runs new_world ms w →
  n_user (self w) = Z.of_nat (length (added_users ms)) ∧
  n_item (self w) = Z.of_nat (length (added_items ms)) ∧
  users (self w) =
    gset_to_gmap {["observed" := VSet ∅]} (list_to_set (added_users ms)) ∧
  items (self w) = gset_to_gmap ∅ (list_to_set (added_items ms)).
Proof.
  intros (Hnu & Hni & Hu & Hi)%method_runs_registry. simpl in *.
  rewrite (right_id_L ∅ (∪)) in Hu, Hi. split_and!; [lia..|done|done].
Qed.

Lemma method_runs_sizes ms w :
  method_runs new_world ms w →
  size (users (self w)) = size (list_to_set (C := gset Z) (added_users ms)) ∧
  size (items (self w)) = size (list_to_set (C := gset Z) (added_items ms)).
Proof.
  intros (_ & _ & -> & ->)%method_runs_fresh.
  by rewrite <-!size_dom, !dom_gset_to_gmap.
Qed.
End method_invariants.

(** X8. From the fresh state, [n_user] is the number of [add_user] calls
    made so far and [n_item] the number of [add_item] calls, whichever
    methods of the two classes were called in between and whether or not an
    index was repeated. *)
Theorem X8_counters_count_calls {score Event : Type} `{np.Less score}
    (ms : list (method score Event)) (w : World score) :
  method_runs new_world ms w →
  n_user (self w) = Z.of_nat (length (added_users ms)) ∧
  n_item (self w) = Z.of_nat (length (added_items ms)).
Proof. intros (? & ? & _)%method_runs_fresh. done. Qed.

Lemma X8_counters_count_calls_witness :
  ∃ w : World float,
    method_runs (Event := unit) new_world
      [Call (Call_add_user (User.mk 7)); Call_update tt true;
       Call (Call_add_user (User.mk 7)); Call_init_model;
       Call (Call_add_item (Item.mk 42))] w ∧
    n_user (self w) = 2%Z ∧ n_item (self w) = 1%Z.
Proof.
  assert (∃ w : World float, method_runs (Event := unit) new_world
      [Call (Call_add_user (User.mk 7)); Call_update tt true;
       Call (Call_add_user (User.mk 7)); Call_init_model;
       Call (Call_add_item (Item.mk 42))] w) as [w Hw].
  { eexists. repeat (eapply method_runs_cons; [reflexivity|]).
    apply method_runs_nil. }
  exists w. split; [exact Hw|]. exact (X8_counters_count_calls _ w Hw).
Defined.

(** X9. From the fresh state, every stored user record is
    [{observed: empty set}] and every stored item record is [{}]: no method
    of the two base classes, [update] included, records an observed item or
    puts anything else in a record. *)
Theorem X9_records_stay_initial {score Event : Type} `{np.Less score}
    (ms : list (method score Event)) (w : World score) :
  method_runs new_world ms w →
  (∀ u r, users (self w) !! u = Some r → r = {["observed" := VSet ∅]}) ∧
  (∀ i r, items (self w) !! i = Some r → r = ∅).
Proof.
  intros (_ & _ & -> & ->)%method_runs_fresh.
  split; intros k r [_ <-]%lookup_gset_to_gmap_Some; done.
Qed.

Lemma X9_records_stay_initial_witness :
  ∃ w : World float,
    method_runs (Event := unit) new_world
      [Call (Call_add_user (User.mk 7)); Call (Call_add_item (Item.mk 42));
       Call_update tt false; Call_recommend (User.mk 7) 0] w ∧
    (∀ u r, users (self w) !! u = Some r → r = {["observed" := VSet ∅]}) ∧
    (∀ i r, items (self w) !! i = Some r → r = ∅).
Proof.
  assert (∃ w : World float, method_runs (Event := unit) new_world
      [Call (Call_add_user (User.mk 7)); Call (Call_add_item (Item.mk 42));
       Call_update tt false; Call_recommend (User.mk 7) 0] w) as [w Hw].
  { eexists. repeat (eapply method_runs_cons; [reflexivity|]).
    apply method_runs_nil. }
  exists w. split; [exact Hw|]. exact (X9_records_stay_initial _ w Hw).
Defined.

(** X10. From the fresh state, [is_new_user(u)] returns false exactly when
    some earlier call was [add_user] with index [u], however long ago, and
    [is_new_item] likewise: a registration is never undone. *)
Theorem X10_is_new_iff_never_added {score Event : Type} `{np.Less score}
    (ms : list (method score Event)) (w : World score) (u i : Z) :
  method_runs new_world ms w →
  is_new_user u (self w) = (Ok (bool_decide (u ∉ added_users ms)), self w) ∧
  is_new_item i (self w) = (Ok (bool_decide (i ∉ added_items ms)), self w).
Proof.
  intros (_ & _ & Hu & Hi)%method_runs_fresh.
  rewrite is_new_user_run, is_new_item_run, Hu, Hi, !dom_gset_to_gmap.
  split; do 2 f_equal; apply bool_decide_ext; by rewrite elem_of_list_to_set.
Qed.

Lemma X10_is_new_iff_never_added_witness :
  ∃ w : World float,
    method_runs (Event := unit) new_world
      [Call (Call_add_user (User.mk 7)); Call (Call_add_item (Item.mk 42));
       Call (Call_add_user (User.mk 8)); Call_predict (User.mk 7) 0] w ∧
    is_new_user 7 (self w) = (Ok false, self w) ∧
    is_new_item 7 (self w) = (Ok true, self w).
Proof.
  assert (∃ w : World float, method_runs (Event := unit) new_world
      [Call (Call_add_user (User.mk 7)); Call (Call_add_item (Item.mk 42));
       Call (Call_add_user (User.mk 8)); Call_predict (User.mk 7) 0] w) as [w Hw].
  { eexists. repeat (eapply method_runs_cons; [reflexivity|]).
    apply method_runs_nil. }
  exists w. split; [exact Hw|].
  exact (X10_is_new_iff_never_added _ w 7%Z 7%Z Hw).
Defined.

(** X11. From the fresh state, [|users| <= n_user] and [|items| <= n_item]
    always hold, and the counts are equal to the sizes exactly when no user
    index and no item index was added twice. *)
Theorem X11_counts_match_iff_no_repeat {score Event : Type} `{np.Less score}
    (ms : list (method score Event)) (w : World score) :
  method_runs new_world ms w →
  (Z.of_nat (size (users (self w))) ≤ n_user (self w))%Z ∧
  (Z.of_nat (size (items (self w))) ≤ n_item (self w))%Z ∧
  (counts_match (self w) ↔ NoDup (added_users ms) ∧ NoDup (added_items ms)).
Proof.
  intros Hruns.
  destruct (method_runs_fresh ms w Hruns) as (Hnu & Hni & _).
  destruct (method_runs_sizes ms w Hruns) as [Hsu Hsi].
  pose proof (size_list_to_set_le (added_users ms)).
  pose proof (size_list_to_set_le (added_items ms)).
  unfold counts_match. rewrite Hnu, Hni, Hsu, Hsi.
  rewrite <-!size_list_to_set_NoDup. split_and!; lia.
Qed.

Lemma X11_counts_match_iff_no_repeat_witness :
  ∃ w : World float,
    method_runs (Event := unit) new_world
      [Call (Call_add_item (Item.mk 42)); Call_update tt true;
       Call (Call_add_item (Item.mk 42))] w ∧
    (Z.of_nat (size (items (self w))) ≤ n_item (self w))%Z.
Proof.
  assert (∃ w : World float, method_runs (Event := unit) new_world
      [Call (Call_add_item (Item.mk 42)); Call_update tt true;
       Call (Call_add_item (Item.mk 42))] w) as [w Hw].
  { eexists. repeat (eapply method_runs_cons; [reflexivity|]).
    apply method_runs_nil. }
  exists w. split; [exact Hw|].
  exact (proj1 (proj2 (X11_counts_match_iff_no_repeat _ w Hw))).
Defined.

(** X12. From any state, whatever methods are called: a registered user or
    item stays registered, the counters never decrease, and every array
    keeps its reference and its contents; arrays are only ever added. *)
Theorem X12_nothing_removed {score Event : Type} `{np.Less score}
    (ms : list (method score Event)) (w w' : World score) :
  method_runs w ms w' →
  dom (users (self w)) ⊆ dom (users (self w')) ∧
  dom (items (self w)) ⊆ dom (items (self w')) ∧
  (n_user (self w) ≤ n_user (self w'))%Z ∧
  (n_item (self w) ≤ n_item (self w'))%Z ∧
  (∀ l a, score_arrays w !! l = Some a → score_arrays w' !! l = Some a) ∧
  (∀ l a, index_arrays w !! l = Some a → index_arrays w' !! l = Some a).
Proof.
  intros Hruns.
  destruct (method_runs_registry w ms w' Hruns) as (Hnu & Hni & Hu & Hi).
  destruct (method_runs_arrays w ms w' Hruns) as [Hs Hx].
  rewrite Hu, Hi, Hnu, Hni, !dom_union_L. split_and!; try set_solver; try lia.
  - intros l a Ha. by eapply prefix_lookup_Some.
  - intros l a Ha. by eapply prefix_lookup_Some.
Qed.

Lemma X12_nothing_removed_witness :
  ∃ w : World float,
    method_runs (Event := unit)
      {| self := (add_user (User.mk 7) __init__).2;
         score_arrays := [[0.3; 0.1]%float];
         index_arrays := [[5; 6]%Z] |}
      [Call (Call_scores2recos 0 0 true); Call (Call_add_user (User.mk 7));
       Call_feature_recommend (User.mk 7) 0 0] w ∧
    dom (users (add_user (User.mk 7) __init__).2) ⊆ dom (users (self w)) ∧
    score_arrays w !! 0 = Some [0.3; 0.1]%float.
Proof.
  assert (∃ w : World float, method_runs (Event := unit)
      {| self := (add_user (User.mk 7) __init__).2;
         score_arrays := [[0.3; 0.1]%float];
         index_arrays := [[5; 6]%Z] |}
      [Call (Call_scores2recos 0 0 true); Call (Call_add_user (User.mk 7));
       Call_feature_recommend (User.mk 7) 0 0] w) as [w Hw].
  { eexists. repeat (eapply method_runs_cons; [reflexivity|]).
    apply method_runs_nil. }
  exists w. split; [exact Hw|].
  destruct (X12_nothing_removed _ _ w Hw) as (Hu & _ & _ & _ & Hs & _).
  split; [exact Hu|]. apply Hs. reflexivity.
Defined.

(** X13. Registrations commute: the state after two [add_user] / [add_item]
    calls does not depend on the order of the two calls. *)
Theorem X13_registrations_commute (self : Recommender) (user1 user2 : User.t)
    (item1 item2 : Item.t) :
  (add_user user1;; add_user user2) self = (add_user user2;; add_user user1) self ∧
  (add_item item1;; add_item item2) self = (add_item item2;; add_item item1) self ∧
  (add_user user1;; add_item item1) self = (add_item item1;; add_user user1) self.
Proof.
  assert (∀ {V} (m : gmap Z V) k1 k2 v,
            <[k2 := v]> (<[k1 := v]> m) = <[k1 := v]> (<[k2 := v]> m)) as Hcomm.
  { intros V m k1 k2 v. destruct (decide (k1 = k2)) as [->|Hne]; [done|].
    by apply insert_insert_ne. }
  split_and!.
  - unfold mbind, Py_bind. rewrite !add_user_run. simpl.
    f_equal. f_equal; first [lia|apply Hcomm].
  - unfold mbind, Py_bind. rewrite !add_item_run. simpl.
    f_equal. f_equal; first [lia|apply Hcomm].
  - reflexivity.
Qed.

(** * The ranking and the order of the candidates *)

Section candidate_order.
Context {score : Type} `{np.StrictWeakOrder score}.
Implicit Types (scores : list score) (items : list Z).

Lemma zip_sorted_snd {B} (R : relation score) (k : list B) (v : list score) :
  StronglySorted R v → StronglySorted (λ x y, R x.2 y.2) (zip k v).
Proof.
  intros Hv. revert k.
  induction Hv as [|x v _ IH Hx]; intros [|b k]; simpl; try constructor.
  - apply IH.
  - apply Forall_forall. intros [c y] Hy. simpl.
    rewrite Forall_forall in Hx. apply Hx. by eapply elem_of_zip_r.
Qed.

(** The ranked pairs: sorted by score, and a permutation of the input
    pairs. *)
Lemma scores2recos_pairs scores items ri rs :
  length scores = length items →
  scores2recos scores items false = Ok (ri, rs) →
  StronglySorted (λ x y : Z * score, np.less y.2 x.2 = false) (zip ri rs) ∧
  zip ri rs ≡ₚ zip items scores ∧ length ri = length rs.
Proof.
  intros Hlen Hr.
  pose proof (scores2recos_ascending _ _ _ _ Hr) as Hasc.
  pose proof (scores2recos_ranked_by _ _ _ _ Hr) as Hby.
  destruct (ranked_by_perm _ _ _ _ _ Hlen Hby) as (_ & _ & Hzip).
  destruct (scores2recos_length _ _ _ _ _ Hr) as [Hi Hs].
  split_and!; [|done|congruence].
  by apply (zip_sorted_snd (λ x y, np.less y x = false)).
Qed.

Lemma scores2recos_order_free scores items scores' items' ri rs ri' rs' :
  length scores = length items →
  length scores' = length items' →
  zip items' scores' ≡ₚ zip items scores →
  (∀ i j x y, scores !! i = Some x → scores !! j = Some y →
     tied x y → i = j) →
  scores2recos scores items false = Ok (ri, rs) →
  scores2recos scores' items' false = Ok (ri', rs') →
  ri' = ri ∧ rs' = rs.
Proof.
  intros Hlen Hlen' Hperm Huntied Hr Hr'.
  destruct (scores2recos_pairs _ _ _ _ Hlen Hr) as (Hs & Hz & Hl).
  destruct (scores2recos_pairs _ _ _ _ Hlen' Hr') as (Hs' & Hz' & Hl').
  assert (zip ri' rs' = zip ri rs) as Heq.
  { eapply StronglySorted_unique_strong; [|done..|by rewrite Hz', Hz].
    intros [a x] [b y] Ha Hb Hxy Hyx. simpl in *.
    rewrite Hz', Hperm in Ha. rewrite Hz in Hb.
    apply list_elem_of_lookup in Ha as [i [Hia Hix]%lookup_zip_Some].
    apply list_elem_of_lookup in Hb as [j [Hjb Hjy]%lookup_zip_Some].
    simpl in *. assert (i = j) as -> by (by apply (Huntied i j x y)).
    congruence. }
  split.
  - rewrite <-(fst_zip ri' rs'), <-(fst_zip ri rs) by lia. by rewrite Heq.
  - rewrite <-(snd_zip ri' rs'), <-(snd_zip ri rs) by lia. by rewrite Heq.
Qed.
End candidate_order.

(** X14. When no two scores are tied, the ranking does not depend on the
    order in which the candidates are given: two inputs with the same
    (item, score) pairs in any order get the same ranking, for either
    [rev]. *)
Theorem X14_candidate_order_is_irrelevant (scores scores' : list float)
    (target_i_indices target_i_indices' : list Z) (rev : bool) :
  length scores = length target_i_indices →
  length scores' = length target_i_indices' →
  zip target_i_indices' scores' ≡ₚ zip target_i_indices scores →
  (∀ i j x y, scores !! i = Some x → scores !! j = Some y →
     tied x y → i = j) →
  scores2recos scores' target_i_indices' rev =
  scores2recos scores target_i_indices rev.
Proof.
  intros Hlen Hlen' Hperm Huntied.
  destruct (scores2recos_total scores target_i_indices false)
    as (ri & rs & Hr); [lia|].
  destruct (scores2recos_total scores' target_i_indices' false)
    as (ri' & rs' & Hr'); [lia|].
  destruct (scores2recos_order_free _ _ _ _ _ _ _ _ Hlen Hlen' Hperm Huntied Hr Hr')
    as [-> ->].
  destruct rev; [|congruence].
  by rewrite (scores2recos_reverse _ _ _ _ Hr), (scores2recos_reverse _ _ _ _ Hr').
Qed.

Lemma X14_candidate_order_is_irrelevant_witness :
  scores2recos [0.2; 0.3; 0.1]%float [9; 7; 8]%Z true =
  scores2recos [0.3; 0.1; 0.2]%float [7; 8; 9]%Z true.
Proof.
  apply X14_candidate_order_is_irrelevant; [reflexivity|reflexivity| |].
  - simpl. etrans; [apply Permutation_swap|]. apply perm_skip, Permutation_swap.
  - intros [|[|[|i]]] [|[|[|j]]] x y Hx Hy [Hxy Hyx];
      simplify_eq/=; try done; vm_compute in Hxy, Hyx; discriminate.
Defined.

(** * Rankings without ties, for every index array of [np.argsort] *)

Section untied_rankings.
Context {score : Type} `{np.StrictWeakOrder score}.
Implicit Types (scores : list score) (items : list Z) (p q : list nat).

(** The ranked pairs for any index array that sorts the scores. *)
Lemma rank_with_pairs p scores items ri rs :
  is_argsort scores p →
  length scores = length items →
  rank_with p scores items false = Ok (ri, rs) →
  StronglySorted (λ x y : Z * score, np.less y.2 x.2 = false) (zip ri rs) ∧
  zip ri rs ≡ₚ zip items scores ∧ length ri = length rs.
Proof.
  intros Hp Hlen Hr. pose proof Hp as [Hperm _].
  pose proof (rank_with_ascending _ _ _ _ _ Hp Hr) as Hasc.
  pose proof (rank_with_ranked_by _ _ _ _ _ Hperm Hr) as Hby.
  destruct (ranked_by_perm _ _ _ _ _ Hlen Hby) as (_ & _ & Hzip).
  destruct (rank_with_length _ _ _ _ _ _ Hperm Hr) as [Hi Hs].
  split_and!; [|done|congruence].
  by apply (zip_sorted_snd (λ x y, np.less y x = false)).
Qed.

(** Without ties the ranking is the same for every such index array. *)
Lemma rank_with_unique p q scores items rev :
  untied scores →
  is_argsort scores p → is_argsort scores q →
  length scores = length items →
  rank_with p scores items rev = rank_with q scores items rev.
Proof.
  intros Huntied Hp Hq Hlen.
  destruct (rank_with_total p scores items false) as (ri & rs & Hr);
    [by destruct Hp|lia|].
  destruct (rank_with_total q scores items false) as (ri' & rs' & Hr');
    [by destruct Hq|lia|].
  destruct (rank_with_pairs _ _ _ _ _ Hp Hlen Hr) as (Hs & Hz & Hl).
  destruct (rank_with_pairs _ _ _ _ _ Hq Hlen Hr') as (Hs' & Hz' & Hl').
  assert (zip ri rs = zip ri' rs') as Heq.
  { eapply StronglySorted_unique_strong; [|done..|by rewrite Hz, Hz'].
    intros [a x] [b y] Ha Hb Hxy Hyx. simpl in *.
    rewrite Hz in Ha. rewrite Hz' in Hb.
    apply list_elem_of_lookup in Ha as [i [Hia Hix]%lookup_zip_Some].
    apply list_elem_of_lookup in Hb as [j [Hjb Hjy]%lookup_zip_Some].
    simpl in *. assert (i = j) as -> by (by apply (Huntied i j x y)).
    congruence. }
  assert (ri = ri') as Hri.
  { rewrite <-(fst_zip ri rs), <-(fst_zip ri' rs') by lia. by rewrite Heq. }
  assert (rs = rs') as Hrs.
  { rewrite <-(snd_zip ri rs), <-(snd_zip ri' rs') by lia. by rewrite Heq. }
  subst ri' rs'. destruct rev; [|congruence].
  by rewrite (rank_with_reverse _ _ _ _ _ Hr), (rank_with_reverse _ _ _ _ _ Hr').
Qed.

(** The identity index array sorts scores that are in ascending order. *)
Lemma is_argsort_identity scores :
  ascending scores → is_argsort scores (seq 0 (length scores)).
Proof.
  intros Hasc. split; [done|]. exists scores. split; [|done].
  rewrite getitem_seq by done. by rewrite firstn_all.
Qed.

Lemma rank_with_identity scores items :
  length scores = length items →
  rank_with (seq 0 (length scores)) scores items false = Ok (items, scores).
Proof.
  intros Hlen. apply rank_with_Ok. simpl. split.
  - rewrite getitem_seq by lia. by rewrite Hlen, firstn_all.
  - rewrite getitem_seq by lia. by rewrite firstn_all.
Qed.

Lemma rank_with_sorted_input p scores items :
  ascending scores → untied scores →
  is_argsort scores p →
  length scores = length items →
  rank_with p scores items false = Ok (items, scores) ∧
  rank_with p scores items true = Ok (reverse items, reverse scores).
Proof.
  intros Hasc Huntied Hp Hlen.
  assert (rank_with p scores items false = Ok (items, scores)) as Hr.
  { rewrite (rank_with_unique p (seq 0 (length scores)) scores items false
               Huntied Hp (is_argsort_identity scores Hasc) Hlen).
    by apply rank_with_identity. }
  split; [done|]. by apply rank_with_reverse.
Qed.

(** Ranked scores inherit the absence of ties. *)
Lemma rank_with_untied p scores items ri rs :
  untied scores →
  is_argsort scores p →
  rank_with p scores items false = Ok (ri, rs) →
  untied rs.
Proof.
  intros Huntied Hp. rewrite rank_with_Ok, !getitem_Ok. simpl.
  intros [_ Hs] a b x y Hx Hy Hxy.
  destruct (Forall2_lookup_r _ _ _ _ _ Hs Hx) as (i & Hi & Hix).
  destruct (Forall2_lookup_r _ _ _ _ _ Hs Hy) as (j & Hj & Hjy).
  assert (i = j) as -> by (by apply (Huntied i j x y)).
  by eapply NoDup_lookup; [eapply is_argsort_NoDup|..].
Qed.

Lemma rank_with_again p q scores items ri rs :
  untied scores →
  is_argsort scores p →
  rank_with p scores items false = Ok (ri, rs) →
  is_argsort rs q →
  rank_with q rs ri false = Ok (ri, rs) ∧
  rank_with q rs ri true = rank_with p scores items true.
Proof.
  intros Huntied Hp Hr Hq. pose proof Hp as [Hperm _].
  pose proof (rank_with_ascending _ _ _ _ _ Hp Hr) as Hasc.
  pose proof (rank_with_untied _ _ _ _ _ Huntied Hp Hr) as Huntied'.
  destruct (rank_with_length _ _ _ _ _ _ Hperm Hr) as [Hi Hs].
  destruct (rank_with_sorted_input q rs ri Hasc Huntied' Hq) as [Hagain Hrev];
    [congruence|].
  split; [done|]. by rewrite Hrev, (rank_with_reverse _ _ _ _ _ Hr).
Qed.
End untied_rankings.

(** X3. For equal-length inputs whose scores are in ascending order with no
    two of them tied, [scores2recos] with [rev = false] returns the items
    and the scores as they are given, and with [rev = true] both reversed;
    and so does the ranking by every index array that [np.argsort] may
    return. *)
Theorem X3_strictly_sorted_scores_unchanged (scores : list float)
    (target_i_indices : list Z) :
  ascending scores →
  untied scores →
  length scores = length target_i_indices →
  (scores2recos scores target_i_indices false = Ok (target_i_indices, scores) ∧
   scores2recos scores target_i_indices true =
     Ok (reverse target_i_indices, reverse scores)) ∧
  ∀ p : list nat,
    is_argsort scores p →
    rank_with p scores target_i_indices false = Ok (target_i_indices, scores) ∧
    rank_with p scores target_i_indices true =
      Ok (reverse target_i_indices, reverse scores).
Proof.
  intros Hasc Huntied Hlen. split.
  - rewrite !scores2recos_rank_with.
    by apply rank_with_sorted_input; [..|apply argsort_is_argsort|].
  - intros p Hp. by apply rank_with_sorted_input.
Qed.

Lemma X3_strictly_sorted_scores_unchanged_witness :
  scores2recos [0.1; 0.2; 0.4]%float [3; 1; 2]%Z false =
    Ok ([3; 1; 2]%Z, [0.1; 0.2; 0.4]%float) ∧
  scores2recos [0.1; 0.2; 0.4]%float [3; 1; 2]%Z true =
    Ok (reverse [3; 1; 2]%Z, reverse [0.1; 0.2; 0.4]%float).
Proof.
  refine (proj1 (X3_strictly_sorted_scores_unchanged
    [0.1; 0.2; 0.4]%float [3; 1; 2]%Z _ _ eq_refl)).
  - repeat constructor.
  - intros [|[|[|i]]] [|[|[|j]]] x y Hx Hy [Hxy Hyx];
      simplify_eq/=; try done; vm_compute in Hxy, Hyx; discriminate.
Defined.

(** X4. When no two scores are tied, ranking is idempotent for
    [rev = false]: ranking a returned pair again returns it unchanged, and
    ranking it with [rev = true] gives what [rev = true] gives on the
    original arguments; for [scores2recos] and for the ranking by every
    index array that [np.argsort] may return, in both calls. *)
Theorem X4_ranking_again_without_ties (scores : list float)
    (target_i_indices : list Z) :
  untied scores →
  (∀ (items : list Z) (ranked : list float),
     scores2recos scores target_i_indices false = Ok (items, ranked) →
     scores2recos ranked items false = Ok (items, ranked) ∧
     scores2recos ranked items true =
       scores2recos scores target_i_indices true) ∧
  (∀ (p q : list nat) (items : list Z) (ranked : list float),
     is_argsort scores p →
     rank_with p scores target_i_indices false = Ok (items, ranked) →
     is_argsort ranked q →
     rank_with q ranked items false = Ok (items, ranked) ∧
     rank_with q ranked items true =
       rank_with p scores target_i_indices true).
Proof.
  intros Huntied. split.
  - intros items ranked Hr. rewrite !scores2recos_rank_with in *.
    eapply rank_with_again; [done|apply argsort_is_argsort|done|].
    apply argsort_is_argsort.
  - intros p q items ranked Hp Hr Hq. by eapply rank_with_again.
Qed.

Lemma X4_ranking_again_without_ties_witness :
  scores2recos [0.1; 0.2; 0.3]%float [8; 9; 7]%Z false =
    Ok ([8; 9; 7]%Z, [0.1; 0.2; 0.3]%float) ∧
  scores2recos [0.1; 0.2; 0.3]%float [8; 9; 7]%Z true =
    scores2recos [0.3; 0.1; 0.2]%float [7; 8; 9]%Z true.
Proof.
  apply (proj1 (X4_ranking_again_without_ties [0.3; 0.1; 0.2]%float [7; 8; 9]%Z
    ltac:(intros [|[|[|i]]] [|[|[|j]]] x y Hx Hy [Hxy Hyx];
            simplify_eq/=; try done; vm_compute in Hxy, Hyx; discriminate))
    [8; 9; 7]%Z [0.1; 0.2; 0.3]%float).
  reflexivity.
Defined.
